(** * Grafana backend slice: preferences, access-control API, API keys,
      kind loading and the CUE filesystem prefixer

    A shallow embedding of five Go source files

      - pkg/services/preferences/preferences.go
      - pkg/services/accesscontrol/api/api.go
      - pkg/services/apikey/apikeyimpl/apikey.go
      - pkg/kindsys/load.go
      - pkg/cuectx (PrefixWithGrafanaCUE)

    Go values are modelled as follows: [string] is [string], [int64] is [Z],
    a nilable pointer or interface is an [option], a Go [map] is a [gmap],
    a pair of results [(v, err)] is a Rocq pair whose second component is an
    [option] error, and a [panic] is a separate outcome.  Collaborators that
    live outside the five files (the store, the access-control service, the
    CUE runtime, the ini file reader, ...) are the variables of a Section or
    the fields of a record. *)

From stdpp Require Import base option list gmap strings fin_maps.
From Stdlib Require Import ZArith Lia Ascii.

Open Scope Z_scope.

(** ** Go idioms shared by all packages *)

(** A Go function that either returns or panics. *)
Inductive outcome (A : Type) : Type :=
  | Returns (a : A)
  | Panics (msg : string).
Arguments Returns {A} a.
Arguments Panics {A} msg.

(** [s != ""] and [n != 0] as the loop of the preferences service tests them. *)
Definition nonempty (s : string) : bool :=
  match s with EmptyString => false | String _ _ => true end.

Definition nonzero (n : Z) : bool := negb (Z.eqb n 0).

Lemma nonempty_false s : nonempty s = false ↔ s = "".
Proof. destruct s; simpl; split; congruence. Qed.

Lemma nonempty_true s : nonempty s = true ↔ s ≠ "".
Proof. destruct s; simpl; split; congruence. Qed.

Lemma nonzero_false n : nonzero n = false ↔ n = 0.
Proof. unfold nonzero. destruct (Z.eqb_spec n 0); simpl; split; congruence. Qed.

Lemma nonzero_true n : nonzero n = true ↔ n ≠ 0.
Proof. unfold nonzero. destruct (Z.eqb_spec n 0); simpl; split; congruence. Qed.

(** ** pkg/services/preferences *)

Module Prefs.

Section Manager.

(** The fields of [models.Preferences] the service does not touch (ids,
    version, timestamps, JSON data) are kept as one opaque component. *)
Variable Rest : Type.
Variable error : Type.

Record Preferences := mkPreferences {
  HomeDashboardId : Z;
  Timezone : string;
  WeekStart : string;
  Theme : string;
  Other : Rest
}.

Record SignedInUser := mkSignedInUser {
  Teams : list Z;
  OrgId : Z;
  UserId : Z
}.

Record GetPreferencesWithDefaultsQuery := mkQuery { User : SignedInUser }.

Record ListPreferencesQuery := mkListQuery {
  lq_Teams : list Z;
  lq_OrgID : Z;
  lq_UserID : Z
}.

(** [pstore.Store], as far as [GetPreferencesWithDefaults] uses it. *)
Record Store := mkStore {
  List : ListPreferencesQuery → list Preferences * option error;
  GetDefaults : Preferences
}.

Record ManagerImpl := mkManager { preferenceStore : Store }.

(** One iteration of [for _, p := range prefs]: four guarded assignments
    to [res]. *)
Definition merge_step (res p : Preferences) : Preferences :=
  let res := if nonempty (Theme p)
             then mkPreferences (HomeDashboardId res) (Timezone res) (WeekStart res) (Theme p) (Other res)
             else res in
  let res := if nonempty (Timezone p)
             then mkPreferences (HomeDashboardId res) (Timezone p) (WeekStart res) (Theme res) (Other res)
             else res in
  let res := if nonempty (WeekStart p)
             then mkPreferences (HomeDashboardId res) (Timezone res) (WeekStart p) (Theme res) (Other res)
             else res in
  let res := if nonzero (HomeDashboardId p)
             then mkPreferences (HomeDashboardId p) (Timezone res) (WeekStart res) (Theme res) (Other res)
             else res in
  res.

Definition merge_all (res : Preferences) (prefs : list Preferences) : Preferences :=
  fold_left merge_step prefs res.

Definition GetPreferencesWithDefaults (s : ManagerImpl) (query : GetPreferencesWithDefaultsQuery)
  : option Preferences * option error :=
  let listQuery := mkListQuery (Teams (User query)) (OrgId (User query)) (UserId (User query)) in
  let '(prefs, err) := List (preferenceStore s) listQuery in
  match err with
  | Some e => (None, Some e)
  | None =>
      let res := GetDefaults (preferenceStore s) in
      let res := merge_all res prefs in
      (Some res, err)
  end.

(** The words of the specification: the value of the last entry of the
    list whose field is non-empty, if there is one. *)
Definition last_nonempty {A} (set : A → bool) (field : Preferences → A)
    (prefs : list Preferences) : option A :=
  last (filter (λ a, set a = true) (field <$> prefs)).

(** [last_nonempty] says what its name says. *)
Lemma last_nonempty_snoc {A} (set : A → bool) field prefs p :
  last_nonempty set field (prefs ++ [p]) =
    if set (field p) then Some (field p) else last_nonempty set field prefs.
Proof.
  unfold last_nonempty. rewrite fmap_app, filter_app. simpl.
  rewrite filter_cons, filter_nil.
  destruct (set (field p)) eqn:E.
  - rewrite decide_True by done. by rewrite last_snoc.
  - rewrite decide_False by congruence. by rewrite app_nil_r.
Qed.

Lemma last_nonempty_Some {A} (set : A → bool) field prefs a :
  last_nonempty set field prefs = Some a ↔
  ∃ l1 p l2, prefs = l1 ++ p :: l2 ∧ field p = a ∧ set a = true ∧
             Forall (λ q, set (field q) = false) l2.
Proof.
  induction prefs as [|p prefs IH] using rev_ind.
  - split; [done|]. intros (l1 & p & l2 & H & _). by destruct l1.
  - rewrite last_nonempty_snoc. destruct (set (field p)) eqn:E.
    + split.
      * intros [= <-]. exists prefs, p, []. by repeat split.
      * intros (l1 & q & l2 & H & <- & Hs & Hall).
        destruct l2 as [|r l2 _] using rev_ind.
        -- apply app_inj_tail in H as [_ ->]. done.
        -- rewrite app_comm_cons, app_assoc in H.
           apply app_inj_tail in H as [_ ->].
           apply Forall_app in Hall as [_ Hr]. inversion Hr; congruence.
    + rewrite IH. split.
      * intros (l1 & q & l2 & -> & <- & Hs & Hall).
        exists l1, q, (l2 ++ [p]). rewrite <- app_assoc. repeat split; try done.
        apply Forall_app. split; [done|]. by constructor.
      * intros (l1 & q & l2 & H & <- & Hs & Hall).
        destruct l2 as [|r l2 _] using rev_ind.
        -- apply app_inj_tail in H as [_ ->]. congruence.
        -- rewrite app_comm_cons, app_assoc in H.
           apply app_inj_tail in H as [-> ->].
           apply Forall_app in Hall as [Hall _].
           by exists l1, q, l2.
Qed.

Lemma last_nonempty_None {A} (set : A → bool) field prefs :
  last_nonempty set field prefs = None ↔ Forall (λ q, set (field q) = false) prefs.
Proof.
  induction prefs as [|p prefs IH] using rev_ind.
  - split; [constructor|done].
  - rewrite last_nonempty_snoc, Forall_app, Forall_singleton.
    destruct (set (field p)); [|rewrite IH]; split; try done.
  + intros [_ ?]; congruence.
  + intros [? _]; done.
Qed.

(** The loop, field by field. *)
Lemma merge_step_Theme res p :
  Theme (merge_step res p) = if nonempty (Theme p) then Theme p else Theme res.
Proof. unfold merge_step. by repeat (case_match; simpl). Qed.

Lemma merge_step_Timezone res p :
  Timezone (merge_step res p) = if nonempty (Timezone p) then Timezone p else Timezone res.
Proof. unfold merge_step. by repeat (case_match; simpl). Qed.

Lemma merge_step_WeekStart res p :
  WeekStart (merge_step res p) = if nonempty (WeekStart p) then WeekStart p else WeekStart res.
Proof. unfold merge_step. by repeat (case_match; simpl). Qed.

Lemma merge_step_HomeDashboardId res p :
  HomeDashboardId (merge_step res p) =
    if nonzero (HomeDashboardId p) then HomeDashboardId p else HomeDashboardId res.
Proof. unfold merge_step. by repeat (case_match; simpl). Qed.

Lemma merge_step_Other res p : Other (merge_step res p) = Other res.
Proof. unfold merge_step. by repeat (case_match; simpl). Qed.

Lemma merge_all_snoc res prefs p :
  merge_all res (prefs ++ [p]) = merge_step (merge_all res prefs) p.
Proof. unfold merge_all. by rewrite fold_left_app. Qed.

(** Any field that obeys the guarded-assignment equation is merged with
    last-non-empty-wins. *)
Lemma merge_all_field {A} (set : A → bool) (field : Preferences → A) :
  (∀ res p, field (merge_step res p) = if set (field p) then field p else field res) →
  ∀ res prefs,
    field (merge_all res prefs) = default (field res) (last_nonempty set field prefs).
Proof.
  intros Hstep res prefs.
  induction prefs as [|p prefs IH] using rev_ind; [done|].
  rewrite merge_all_snoc, Hstep, last_nonempty_snoc.
  destruct (set (field p)); [done|]. by rewrite IH.
Qed.

(** The list query is built from the signed-in user of the request. *)
Definition list_query (query : GetPreferencesWithDefaultsQuery) : ListPreferencesQuery :=
  mkListQuery (Teams (User query)) (OrgId (User query)) (UserId (User query)).

Lemma GetPreferencesWithDefaults_ok s query prefs :
  List (preferenceStore s) (list_query query) = (prefs, None) →
  GetPreferencesWithDefaults s query =
    (Some (merge_all (GetDefaults (preferenceStore s)) prefs), None).
Proof.
  unfold GetPreferencesWithDefaults, list_query. by intros ->.
Qed.

Lemma GetPreferencesWithDefaults_err s query prefs e :
  List (preferenceStore s) (list_query query) = (prefs, Some e) →
  GetPreferencesWithDefaults s query = (None, Some e).
Proof.
  unfold GetPreferencesWithDefaults, list_query. by intros ->.
Qed.


(** C6: a field that is empty (empty string, zero id) in every listed
    entry is left at the store default's value by the merge. *)
Theorem GetPreferencesWithDefaults_frame s query prefs :
  List (preferenceStore s) (list_query query) = (prefs, None) →
  ∃ res,
    GetPreferencesWithDefaults s query = (Some res, None) ∧
    (Forall (λ p, Theme p = "") prefs →
       Theme res = Theme (GetDefaults (preferenceStore s))) ∧
    (Forall (λ p, Timezone p = "") prefs →
       Timezone res = Timezone (GetDefaults (preferenceStore s))) ∧
    (Forall (λ p, WeekStart p = "") prefs →
       WeekStart res = WeekStart (GetDefaults (preferenceStore s))) ∧
    (Forall (λ p, HomeDashboardId p = 0) prefs →
       HomeDashboardId res = HomeDashboardId (GetDefaults (preferenceStore s))).
Proof.
  intros HList. eexists. split; [by apply GetPreferencesWithDefaults_ok|].
  split; [|split; [|split]]; intros Hall.
  - rewrite (merge_all_field nonempty Theme) by apply merge_step_Theme.
    replace (last_nonempty nonempty Theme prefs) with (@None string); [done|].
    symmetry. apply last_nonempty_None.
    eapply Forall_impl; [exact Hall|]. intros p Hp. by apply nonempty_false.
  - rewrite (merge_all_field nonempty Timezone) by apply merge_step_Timezone.
    replace (last_nonempty nonempty Timezone prefs) with (@None string); [done|].
    symmetry. apply last_nonempty_None.
    eapply Forall_impl; [exact Hall|]. intros p Hp. by apply nonempty_false.
  - rewrite (merge_all_field nonempty WeekStart) by apply merge_step_WeekStart.
    replace (last_nonempty nonempty WeekStart prefs) with (@None string); [done|].
    symmetry. apply last_nonempty_None.
    eapply Forall_impl; [exact Hall|]. intros p Hp. by apply nonempty_false.
  - rewrite (merge_all_field nonzero HomeDashboardId) by apply merge_step_HomeDashboardId.
    replace (last_nonempty nonzero HomeDashboardId prefs) with (@None Z); [done|].
    symmetry. apply last_nonempty_None.
    eapply Forall_impl; [exact Hall|]. intros p Hp. by apply nonzero_false.
Qed.

(** *** Further properties of the merge *)

Lemma Preferences_eq (p q : Preferences) :
  HomeDashboardId p = HomeDashboardId q → Timezone p = Timezone q →
  WeekStart p = WeekStart q → Theme p = Theme q → Other p = Other q → p = q.
Proof. destruct p, q; simpl; intros; by subst. Qed.

Lemma merge_all_Other res prefs : Other (merge_all res prefs) = Other res.
Proof.
  induction prefs as [|p prefs IH] using rev_ind; [done|].
  by rewrite merge_all_snoc, merge_step_Other.
Qed.

Lemma merge_all_app res prefs1 prefs2 :
  merge_all res (prefs1 ++ prefs2) = merge_all (merge_all res prefs1) prefs2.
Proof. unfold merge_all. apply fold_left_app. Qed.

(** A row that sets nothing, and a row that sets all four fields. *)
Definition blank (p : Preferences) : bool :=
  negb (nonempty (Theme p)) && negb (nonempty (Timezone p)) &&
  negb (nonempty (WeekStart p)) && negb (nonzero (HomeDashboardId p)).

Definition full (p : Preferences) : bool :=
  nonempty (Theme p) && nonempty (Timezone p) &&
  nonempty (WeekStart p) && nonzero (HomeDashboardId p).

Lemma merge_step_blank res p : blank p = true → merge_step res p = res.
Proof.
  unfold blank. rewrite !andb_true_iff, !negb_true_iff. intros [[[H1 H2] H3] H4].
  apply Preferences_eq.
  - by rewrite merge_step_HomeDashboardId, H4.
  - by rewrite merge_step_Timezone, H2.
  - by rewrite merge_step_WeekStart, H3.
  - by rewrite merge_step_Theme, H1.
  - apply merge_step_Other.
Qed.

Lemma merge_step_full res p :
  full p = true →
  merge_step res p =
    mkPreferences (HomeDashboardId p) (Timezone p) (WeekStart p) (Theme p) (Other res).
Proof.
  unfold full. rewrite !andb_true_iff. intros [[[H1 H2] H3] H4].
  apply Preferences_eq; simpl.
  - by rewrite merge_step_HomeDashboardId, H4.
  - by rewrite merge_step_Timezone, H2.
  - by rewrite merge_step_WeekStart, H3.
  - by rewrite merge_step_Theme, H1.
  - apply merge_step_Other.
Qed.

Lemma merge_all_drop_blank res prefs :
  merge_all res (filter (λ p, blank p = false) prefs) = merge_all res prefs.
Proof.
  revert res. induction prefs as [|p prefs IH]; intros res; [done|].
  rewrite filter_cons. destruct (blank p) eqn:Hp.
  - rewrite decide_False by done. simpl. by rewrite merge_step_blank, IH.
  - rewrite decide_True by done. simpl. apply IH.
Qed.

(** The manager over a store that leaves the rows that set nothing out of
    its listings. *)
Definition without_blank_rows (s : ManagerImpl) : ManagerImpl :=
  mkManager
    (mkStore
       (λ q, let '(prefs, err) := List (preferenceStore s) q in
             (filter (λ p, blank p = false) prefs, err))
       (GetDefaults (preferenceStore s))).

(** X1: GetPreferencesWithDefaults returns exactly the error of the store's
    List, and it returns preferences if and only if that error is nil: never
    both a result and an error, never neither. *)
Theorem GetPreferencesWithDefaults_result_xor_error s query :
  snd (GetPreferencesWithDefaults s query) =
    snd (List (preferenceStore s) (list_query query)) ∧
  (is_Some (fst (GetPreferencesWithDefaults s query)) ↔
   snd (GetPreferencesWithDefaults s query) = None).
Proof.
  unfold GetPreferencesWithDefaults, list_query.
  destruct (List _ _) as [prefs [e|]]; simpl.
  - split; [done|]. split; [by intros [? ?]|done].
  - split; [done|]. split; [done|]. intros _. by eexists.
Qed.

(** X2: the merge assigns the four display fields only: every other field
    of the result (ids, version, timestamps, JSON data) is the store
    default's, whatever the listed rows hold. *)
Theorem GetPreferencesWithDefaults_keeps_other_fields s query res :
  fst (GetPreferencesWithDefaults s query) = Some res →
  Other res = Other (GetDefaults (preferenceStore s)).
Proof.
  unfold GetPreferencesWithDefaults.
  destruct (List _ _) as [prefs [e|]]; simpl; [done|].
  intros [= <-]. apply merge_all_Other.
Qed.

(** X3: rows that set none of the four fields do not count: a store that
    leaves them out of its listing gives the same answer, result and error,
    for every query. *)
Theorem GetPreferencesWithDefaults_ignores_blank_rows s query :
  GetPreferencesWithDefaults (without_blank_rows s) query =
  GetPreferencesWithDefaults s query.
Proof.
  unfold GetPreferencesWithDefaults, without_blank_rows. simpl.
  destruct (List _ _) as [prefs [e|]]; simpl; [done|].
  by rewrite merge_all_drop_blank.
Qed.

(** X4: a row that sets all four fields hides every row listed before it:
    the result is what the rows from that one on give. *)
Theorem GetPreferencesWithDefaults_full_row_hides_earlier s query before p after :
  List (preferenceStore s) (list_query query) = (before ++ p :: after, None) →
  full p = true →
  GetPreferencesWithDefaults s query =
    (Some (merge_all (GetDefaults (preferenceStore s)) (p :: after)), None).
Proof.
  intros HList Hfull. rewrite (GetPreferencesWithDefaults_ok _ _ _ HList).
  do 2 f_equal. rewrite merge_all_app. simpl.
  rewrite !merge_step_full by done. by rewrite merge_all_Other.
Qed.

(** X5: the merge is idempotent: merging the rows again into the result of
    merging them changes nothing. *)
Theorem merge_all_idempotent res prefs :
  merge_all (merge_all res prefs) prefs = merge_all res prefs.
Proof.
  assert (∀ {A} (d : A) o, default (default d o) o = default d o) as Hdef
    by (by intros A d [a|]).
  apply Preferences_eq.
  - rewrite !(merge_all_field nonzero HomeDashboardId) by apply merge_step_HomeDashboardId.
    apply Hdef.
  - rewrite !(merge_all_field nonempty Timezone) by apply merge_step_Timezone.
    apply Hdef.
  - rewrite !(merge_all_field nonempty WeekStart) by apply merge_step_WeekStart.
    apply Hdef.
  - rewrite !(merge_all_field nonempty Theme) by apply merge_step_Theme.
    apply Hdef.
  - by rewrite !merge_all_Other.
Qed.

End Manager.

Arguments mkPreferences {Rest}.
Arguments HomeDashboardId {Rest}.
Arguments Timezone {Rest}.
Arguments WeekStart {Rest}.
Arguments Theme {Rest}.
Arguments Other {Rest}.
Arguments mkStore {Rest error}.
Arguments mkManager {Rest error}.
Arguments GetPreferencesWithDefaults {Rest error}.

(** A store with a team row, an org row and a user row, in the order the
    store lists them, and the defaults of a fresh installation. *)
Definition demo_defaults : Preferences unit := mkPreferences 0 "utc" "" "" tt.

Definition demo_rows : list (Preferences unit) :=
  [ mkPreferences 3 "" "monday" "light" tt;
    mkPreferences 0 "browser" "" "dark" tt;
    mkPreferences 0 "" "" "" tt ].

Definition demo_manager : ManagerImpl unit string :=
  mkManager (mkStore (λ _, (demo_rows, None)) demo_defaults).

Definition demo_query : GetPreferencesWithDefaultsQuery :=
  mkQuery (mkSignedInUser [4; 9] 1 2).

(** Rows whose theme and home dashboard are all unset. *)
Definition demo_unset_rows : list (Preferences unit) :=
  [ mkPreferences 0 "" "monday" "" tt;
    mkPreferences 0 "browser" "" "" tt ].

Definition demo_unset_manager : ManagerImpl unit string :=
  mkManager (mkStore (λ _, (demo_unset_rows, None)) (mkPreferences 11 "utc" "sunday" "system" tt)).


Lemma GetPreferencesWithDefaults_frame_witness :
  ∃ res,
    GetPreferencesWithDefaults demo_unset_manager demo_query = (Some res, None) ∧
    Theme res = "system" ∧ HomeDashboardId res = 11.
Proof.
  destruct (GetPreferencesWithDefaults_frame unit string
              demo_unset_manager demo_query demo_unset_rows eq_refl)
    as (res & Hres & HTheme & _ & _ & HHome).
  exists res. split; [exact Hres|]. split.
  - apply HTheme. repeat constructor.
  - apply HHome. repeat constructor.
Defined.

(** Rows of a user who set everything, after an org row and a team row. *)
Definition demo_full_rows : list (Preferences unit) :=
  [ mkPreferences 3 "" "monday" "light" tt;
    mkPreferences 0 "browser" "" "dark" tt;
    mkPreferences 8 "Europe/Rome" "saturday" "system" tt;
    mkPreferences 0 "" "" "light" tt ].

Definition demo_full_manager : ManagerImpl unit string :=
  mkManager (mkStore (λ _, (demo_full_rows, None)) demo_defaults).

Lemma GetPreferencesWithDefaults_keeps_other_fields_witness :
  ∃ res, fst (GetPreferencesWithDefaults demo_manager demo_query) = Some res ∧ Other res = tt.
Proof.
  eexists. split; [reflexivity|].
  exact (GetPreferencesWithDefaults_keeps_other_fields unit string
           demo_manager demo_query _ eq_refl).
Defined.

Lemma GetPreferencesWithDefaults_full_row_hides_earlier_witness :
  GetPreferencesWithDefaults demo_full_manager demo_query =
    (Some (mkPreferences 8 "Europe/Rome" "saturday" "light" tt), None).
Proof.
  exact (GetPreferencesWithDefaults_full_row_hides_earlier unit string
           demo_full_manager demo_query
           [ mkPreferences 3 "" "monday" "light" tt; mkPreferences 0 "browser" "" "dark" tt ]
           (mkPreferences 8 "Europe/Rome" "saturday" "system" tt)
           [ mkPreferences 0 "" "" "light" tt ]
           eq_refl eq_refl).
Defined.

End Prefs.

(** ** pkg/services/accesscontrol/api *)

Module AccessControlAPI.

(** [net/http] status codes. *)
Definition StatusOK : Z := 200.
Definition StatusBadRequest : Z := 400.
Definition StatusInternalServerError : Z := 500.

Section Handlers.

(** Types of the access-control package and of the request context. *)
Variable Context : Type.
Variable SignedInUser : Type.
Variable Permission : Type.
Variable PermissionsMap : Type.
Variable UsersPermissions : Type.
Variable error : Type.

(** [ac.BuildPermissionsMap]. *)
Variable BuildPermissionsMap : list Permission → PermissionsMap.

Record Options := mkOptions { ReloadCache : bool }.

(** The part of [models.ReqContext] the handlers read. *)
Record ReqContext := mkReqContext {
  Query : string → string;
  QueryBool : string → bool;
  ReqCtx : Context;
  User : SignedInUser;
  OrgID : Z
}.

(** [ac.Service]: the two methods the handlers call. *)
Record Service := mkService {
  GetUserPermissions :
    Context → SignedInUser → Options → list Permission * option error;
  GetSimplifiedUsersPermissions :
    Context → SignedInUser → Z → string → UsersPermissions * option error
}.

(** A call made to the service, as an observer of the service sees it. *)
Inductive ServiceCall :=
  | CallGetUserPermissions (ctx : Context) (u : SignedInUser) (o : Options)
  | CallGetSimplifiedUsersPermissions (ctx : Context) (u : SignedInUser) (org : Z) (prefix : string).

(** What a handler passes to [response.JSON] as its body. *)
Inductive Body :=
  | BodyError (e : error)
  | BodyString (s : string)
  | BodyPermissionsMap (m : PermissionsMap)
  | BodyUsersPermissions (p : UsersPermissions).

(** The two constructors of [response.Response] the handlers use. *)
Inductive Response :=
  | JSON (status : Z) (body : Body)
  | Error (status : Z) (message : string) (err : error).

Definition Status (r : Response) : Z :=
  match r with
  | JSON status _ => status
  | Error status _ _ => status
  end.

(** Handlers run in a state monad over the log of service calls. *)
Definition Handler (A : Type) : Type := list ServiceCall → A * list ServiceCall.

#[local] Instance handler_ret : MRet Handler := λ A a log, (a, log).

#[local] Instance handler_bind : MBind Handler :=
  λ A B k m log, let '(a, log') := m log in k a log'.

(** A service call returns the service's result and is appended to the log. *)
Definition call {A} (c : ServiceCall) (result : A) : Handler A :=
  λ log, (result, log ++ [c]).

Record AccessControlAPI := mkAPI { service : Service }.

(** GET /api/access-control/user/permissions.  The response built in the
    [if err != nil] branch is not returned: control falls through to the
    final [return]. *)
Definition getUserPermissions (api : AccessControlAPI) (c : ReqContext) : Handler Response :=
  let reloadCache := QueryBool c "reloadcache" in
  '(permissions, err) ←
    call (CallGetUserPermissions (ReqCtx c) (User c) (mkOptions reloadCache))
         (GetUserPermissions (service api) (ReqCtx c) (User c) (mkOptions reloadCache));
  let _discarded :=
    match err with
    | Some e => Some (JSON StatusInternalServerError (BodyError e))
    | None => None
    end in
  mret (JSON StatusOK (BodyPermissionsMap (BuildPermissionsMap permissions))).

(** GET /api/access-control/users/permissions *)
Definition getSimpliedUsersPermissions (api : AccessControlAPI) (c : ReqContext) : Handler Response :=
  let actionPrefix := Query c "actionPrefix" in
  if negb (nonempty actionPrefix) then
    mret (JSON StatusBadRequest (BodyString "missing action prefix"))
  else
    '(permissions, err) ←
      call (CallGetSimplifiedUsersPermissions (ReqCtx c) (User c) (OrgID c) actionPrefix)
           (GetSimplifiedUsersPermissions (service api) (ReqCtx c) (User c) (OrgID c) actionPrefix);
    match err with
    | Some e => mret (Error StatusInternalServerError "could not get org user permissions" e)
    | None => mret (JSON StatusOK (BodyUsersPermissions permissions))
    end.

(** C2 (evaluation of the code): whatever GetUserPermissions returns, a nil
    error or not, getUserPermissions calls the service once and answers with
    status 200 and the permissions map of the permissions the service
    returned; on an error the 500 response it builds is dropped. *)
Theorem getUserPermissions_always_answers_200 api c log :
  let opts := mkOptions (QueryBool c "reloadcache") in
  let result := GetUserPermissions (service api) (ReqCtx c) (User c) opts in
  getUserPermissions api c log =
    (JSON 200 (BodyPermissionsMap (BuildPermissionsMap (fst result))),
     log ++ [CallGetUserPermissions (ReqCtx c) (User c) opts]).
Proof.
  intros opts result. unfold getUserPermissions, mbind, handler_bind, call, mret, handler_ret.
  fold opts. fold result. by destruct result as [permissions [e|]].
Qed.

(** C9: with an empty actionPrefix the handler answers 400 with the body
    "missing action prefix" and makes no service call; with a non-empty one
    it calls GetSimplifiedUsersPermissions exactly once, with the request's
    context, user, org id and the prefix, and answers 500 when that returns
    an error and 200 with the permissions otherwise. *)
Theorem getSimpliedUsersPermissions_cases api c log :
  let actionPrefix := Query c "actionPrefix" in
  let result :=
    GetSimplifiedUsersPermissions (service api) (ReqCtx c) (User c) (OrgID c) actionPrefix in
  let invoked :=
    log ++ [CallGetSimplifiedUsersPermissions (ReqCtx c) (User c) (OrgID c) actionPrefix] in
  (actionPrefix = "" →
     getSimpliedUsersPermissions api c log =
       (JSON 400 (BodyString "missing action prefix"), log)) ∧
  (actionPrefix ≠ "" →
     (∀ e, snd result = Some e →
        ∃ r, getSimpliedUsersPermissions api c log = (r, invoked) ∧ Status r = 500) ∧
     (snd result = None →
        getSimpliedUsersPermissions api c log =
          (JSON 200 (BodyUsersPermissions (fst result)), invoked))).
Proof.
  intros actionPrefix result invoked. unfold getSimpliedUsersPermissions.
  fold actionPrefix. split.
  - intros ->. reflexivity.
  - intros Hne. apply nonempty_true in Hne. rewrite Hne. simpl.
    unfold mbind, handler_bind, call, mret, handler_ret. fold result invoked.
    destruct result as [permissions err]. simpl. split.
    + intros e ->. eexists. split; reflexivity.
    + intros ->. reflexivity.
Qed.

(** X6: getSimpliedUsersPermissions answers 200 exactly when the action
    prefix is non-empty and the service returned no error; its status is
    always one of 200, 400 and 500; and it appends at most one service call
    to the log, leaving the earlier calls as they were. *)
Theorem getSimpliedUsersPermissions_ok_iff_service_ok api c log :
  let actionPrefix := Query c "actionPrefix" in
  let result :=
    GetSimplifiedUsersPermissions (service api) (ReqCtx c) (User c) (OrgID c) actionPrefix in
  let answer := getSimpliedUsersPermissions api c log in
  (Status (fst answer) = 200 ↔ actionPrefix ≠ "" ∧ snd result = None) ∧
  (Status (fst answer) = 200 ∨ Status (fst answer) = 400 ∨ Status (fst answer) = 500) ∧
  (snd answer = log ∨
   snd answer =
     log ++ [CallGetSimplifiedUsersPermissions (ReqCtx c) (User c) (OrgID c) actionPrefix]).
Proof.
  intros actionPrefix result answer. subst answer.
  unfold getSimpliedUsersPermissions. fold actionPrefix.
  destruct (nonempty actionPrefix) eqn:Hne; simpl.
  - apply nonempty_true in Hne.
    unfold mbind, handler_bind, call, mret, handler_ret. fold result.
    destruct result as [permissions [e|]]; simpl.
    + split; [|split; [by right; right|by right]].
      split; [done|]. by intros [_ ?].
    + split; [|split; [by left|by right]]. done.
  - apply nonempty_false in Hne.
    split; [|split; [by right; left|by left]].
    split; [done|]. by intros [? _].
Qed.

End Handlers.

Arguments mkReqContext {Context SignedInUser}.
Arguments mkService {Context SignedInUser Permission UsersPermissions error}.
Arguments mkAPI {Context SignedInUser Permission UsersPermissions error}.
Arguments JSON {PermissionsMap UsersPermissions error}.
Arguments Error {PermissionsMap UsersPermissions error}.
Arguments Status {PermissionsMap UsersPermissions error}.
Arguments BodyError {PermissionsMap UsersPermissions error}.
Arguments BodyString {PermissionsMap UsersPermissions error}.
Arguments BodyPermissionsMap {PermissionsMap UsersPermissions error}.
Arguments BodyUsersPermissions {PermissionsMap UsersPermissions error}.
Arguments CallGetUserPermissions {Context SignedInUser}.
Arguments CallGetSimplifiedUsersPermissions {Context SignedInUser}.
Arguments getUserPermissions {Context SignedInUser Permission PermissionsMap UsersPermissions error}.
Arguments getSimpliedUsersPermissions {Context SignedInUser Permission PermissionsMap UsersPermissions error}.

(** A service whose storage is down unless the action prefix is
    "dashboards", and three requests of the user "viewer". *)
Definition demo_service : Service unit string (string * string) (list (Z * list string)) string :=
  mkService
    (λ _ _ _, ([], Some "database is locked"))
    (λ _ _ _ prefix,
       if String.eqb prefix "dashboards"
       then ([(7, ["dashboards:read"])], None)
       else ([], Some "database is locked")).

Definition demo_api : AccessControlAPI unit string (string * string) (list (Z * list string)) string :=
  mkAPI demo_service.

Definition demo_request (actionPrefix : string) : ReqContext unit string :=
  mkReqContext
    (λ name, if String.eqb name "actionPrefix" then actionPrefix else "")
    (λ _, false) tt "viewer" 1.

(** C2 at the failing input: the service fails, the client reads 200 with
    an empty permissions map. *)
Example getUserPermissions_failing_service :
  getUserPermissions (λ l, l) demo_api (demo_request "") [] =
    (JSON 200 (BodyPermissionsMap []),
     [CallGetUserPermissions tt "viewer" (mkOptions false)]).
Proof. reflexivity. Qed.

Lemma getSimpliedUsersPermissions_cases_witness :
  getSimpliedUsersPermissions (PermissionsMap := unit) demo_api (demo_request "") [] =
    (JSON 400 (BodyString "missing action prefix"), []) ∧
  getSimpliedUsersPermissions (PermissionsMap := unit) demo_api (demo_request "dashboards") [] =
    (JSON 200 (BodyUsersPermissions [(7, ["dashboards:read"])]),
     [CallGetSimplifiedUsersPermissions tt "viewer" 1 "dashboards"]) ∧
  ∃ r, getSimpliedUsersPermissions (PermissionsMap := unit) demo_api (demo_request "teams") [] =
         (r, [CallGetSimplifiedUsersPermissions tt "viewer" 1 "teams"]) ∧
       Status r = 500.
Proof.
  split; [|split].
  - apply (getSimpliedUsersPermissions_cases unit string (string * string)
             unit (list (Z * list string)) string
             demo_api (demo_request "") []).
    reflexivity.
  - apply (getSimpliedUsersPermissions_cases unit string (string * string)
             unit (list (Z * list string)) string
             demo_api (demo_request "dashboards") []); [discriminate|reflexivity].
  - apply (getSimpliedUsersPermissions_cases unit string (string * string)
             unit (list (Z * list string)) string
             demo_api (demo_request "teams") []) with (e := "database is locked");
      [discriminate|reflexivity].
Defined.

End AccessControlAPI.

(** ** pkg/services/apikey/apikeyimpl *)

Module Apikey.

(** *** The ini file behind [setting.Cfg.Raw] *)

(** A section maps key names to raw values, a file maps section names to
    sections. *)
Abbreviation IniSection := (gmap string string).
Abbreviation IniFile := (gmap string IniSection).

Definition HasSection (f : IniFile) (name : string) : bool :=
  bool_decide (is_Some (f !! name)).

(** [File.Section]: the named section, an empty one when there is none. *)
Definition Section_ (f : IniFile) (name : string) : IniSection :=
  default ∅ (f !! name).

(** [Section.Key]: the raw value of the key, the empty value of a fresh key
    when the section has no such key. *)
Definition Key (s : IniSection) (name : string) : string :=
  default "" (s !! name).

Section Service.

(** [Key.Int64] on a raw value: the int64 it denotes, if it denotes one. *)
Variable ParseInt64 : string → option Z.

(** [Key.MustInt64(defaultVal)]. *)
Definition MustInt64 (value : string) (defaultVal : Z) : Z :=
  match ParseInt64 value with
  | Some n => n
  | None => defaultVal
  end.

(** The quota package: tags are built from a service, a target and a
    scope; a [quota.Map] maps tags to limits. *)
Context {Tag : Type} `{Countable Tag}.
Variables TargetSrv Target Scope error : Type.
Variable NewTag : TargetSrv → Target → Scope → Tag * option error.
Variables (GlobalScope OrgScope : Scope).

(** [apikey.QuotaTargetSrv] and [apikey.QuotaTarget]. *)
Variable QuotaTargetSrv : TargetSrv.
Variable QuotaTarget : Target.

(** [quota.Map.Set]. *)
Definition Set_ (m : gmap Tag Z) (tag : Tag) (limit : Z) : gmap Tag Z :=
  <[tag := limit]> m.

(** The fields of [setting.Cfg] the package reads. *)
Record Cfg := mkCfg {
  Raw : option IniFile;
  IsFeatureToggleEnabled : string → bool
}.

Definition readQuotaConfig (cfg : Cfg) : gmap Tag Z * option error :=
  match Raw cfg with
  | None => (∅, None)
  | Some raw =>
      if negb (HasSection raw "quota") then (∅, None)
      else
        let quotaSection := Section_ raw "quota" in
        let '(globalQuotaTag, err) := NewTag QuotaTargetSrv QuotaTarget GlobalScope in
        match err with
        | Some e => (∅, Some e)
        | None =>
            let '(orgQuotaTag, err) := NewTag QuotaTargetSrv QuotaTarget OrgScope in
            match err with
            | Some e => (∅, Some e)
            | None =>
                let limits := ∅ in
                let limits :=
                  Set_ limits globalQuotaTag (MustInt64 (Key quotaSection "global_api_key") (-1)) in
                let limits :=
                  Set_ limits orgQuotaTag (MustInt64 (Key quotaSection "org_api_key") 10) in
                (limits, None)
            end
        end
  end.

(** *** ProvideService *)

Variables DB SqlxSession Bus : Type.
Variable GetSqlxSession : DB → SqlxSession.

(** The two implementations of the package's [store] interface. *)
Inductive store :=
  | sqlxStore (sess : SqlxSession) (cfg : Cfg)
  | sqlStore (db : DB) (cfg : Cfg).

Definition is_sqlStore (s : option store) : bool :=
  match s with
  | Some (sqlStore _ _) => true
  | _ => false
  end.

Record Service := mkService { store_ : option store }.

(** [events.NewQuotaReporter]; the reporter is the method value [s.Usage]. *)
Record NewQuotaReporter := mkNewQuotaReporter {
  TargetSrv_ : TargetSrv;
  DefaultLimits : gmap Tag Z;
  Reporter : Service
}.

Variable Publish : Bus → NewQuotaReporter → option error.

Definition ProvideService (db : DB) (cfg : Cfg) (bus : Bus) : Service * option error :=
  let s := mkService None in
  let s :=
    if IsFeatureToggleEnabled cfg "newDBLibrary"
    then mkService (Some (sqlxStore (GetSqlxSession db) cfg))
    else s in
  let s := mkService (Some (sqlStore db cfg)) in
  let '(defaultLimits, err) := readQuotaConfig cfg in
  match err with
  | Some e => (s, Some e)
  | None =>
      match Publish bus (mkNewQuotaReporter QuotaTargetSrv defaultLimits s) with
      | Some e => (s, Some e)
      | None => (s, None)
      end
  end.

(** The limit read for a key: its default when the key is absent, its
    value when the key is present and denotes an int64. *)
Lemma MustInt64_absent (s : IniSection) name d :
  ParseInt64 "" = None → s !! name = None → MustInt64 (Key s name) d = d.
Proof. intros Hempty Hs. unfold MustInt64, Key. by rewrite Hs; simpl; rewrite Hempty. Qed.

Lemma MustInt64_present (s : IniSection) name v n d :
  s !! name = Some v → ParseInt64 v = Some n → MustInt64 (Key s name) d = n.
Proof. intros Hs Hv. unfold MustInt64, Key. by rewrite Hs; simpl; rewrite Hv. Qed.

Lemma HasSection_true (f : IniFile) name :
  HasSection f name = true ↔ ∃ s, f !! name = Some s.
Proof. unfold HasSection. rewrite bool_decide_eq_true. done. Qed.

Lemma HasSection_false (f : IniFile) name :
  HasSection f name = false ↔ f !! name = None.
Proof. unfold HasSection. rewrite bool_decide_eq_false, eq_None_not_Some. done. Qed.

(** The configuration [cfg] with the feature toggle "newDBLibrary" forced
    to [b]; used to compare the two settings of the toggle. *)
Definition with_toggle (cfg : Cfg) (b : bool) : Cfg :=
  mkCfg (Raw cfg)
        (λ key, if String.eqb key "newDBLibrary" then b else IsFeatureToggleEnabled cfg key).

Lemma readQuotaConfig_no_raw cfg :
  Raw cfg = None → readQuotaConfig cfg = (∅, None).
Proof. unfold readQuotaConfig. by intros ->. Qed.

Lemma readQuotaConfig_no_section cfg raw :
  Raw cfg = Some raw → raw !! "quota" = None → readQuotaConfig cfg = (∅, None).
Proof.
  unfold readQuotaConfig. intros -> Hsec.
  apply HasSection_false in Hsec. by rewrite Hsec.
Qed.

Lemma readQuotaConfig_section cfg raw sec gt ot :
  Raw cfg = Some raw → raw !! "quota" = Some sec →
  NewTag QuotaTargetSrv QuotaTarget GlobalScope = (gt, None) →
  NewTag QuotaTargetSrv QuotaTarget OrgScope = (ot, None) →
  readQuotaConfig cfg =
    (<[ot := MustInt64 (Key sec "org_api_key") 10]>
       (<[gt := MustInt64 (Key sec "global_api_key") (-1)]> ∅), None).
Proof.
  unfold readQuotaConfig, Set_, Section_. intros -> Hsec -> ->.
  assert (HasSection raw "quota" = true) as -> by (apply HasSection_true; eauto).
  by rewrite Hsec.
Qed.

(** C5: without an ini file, or without a "quota" section in it,
    readQuotaConfig returns the empty map and no error.  With a "quota"
    section, and the global and the org api-key tags built by quota.NewTag,
    it returns (with no error) a map whose tags are exactly these two: the
    global tag is bound to the section's global_api_key value, -1 when the
    key is absent, and the org tag to the section's org_api_key value, 10
    when the key is absent. *)
Theorem readQuotaConfig_two_scopes cfg :
  ((Raw cfg = None ∨ ∃ raw, Raw cfg = Some raw ∧ raw !! "quota" = None) →
     readQuotaConfig cfg = (∅, None)) ∧
  (∀ raw sec gt ot,
     Raw cfg = Some raw → raw !! "quota" = Some sec →
     NewTag QuotaTargetSrv QuotaTarget GlobalScope = (gt, None) →
     NewTag QuotaTargetSrv QuotaTarget OrgScope = (ot, None) →
     gt ≠ ot →
     ∃ limits,
       readQuotaConfig cfg = (limits, None) ∧
       dom limits = {[gt; ot]} ∧
       (∀ v n, sec !! "global_api_key" = Some v → ParseInt64 v = Some n →
               limits !! gt = Some n) ∧
       (∀ v n, sec !! "org_api_key" = Some v → ParseInt64 v = Some n →
               limits !! ot = Some n) ∧
       (ParseInt64 "" = None → sec !! "global_api_key" = None → limits !! gt = Some (-1)) ∧
       (ParseInt64 "" = None → sec !! "org_api_key" = None → limits !! ot = Some 10)).
Proof.
  split.
  - intros [Hraw | (raw & Hraw & Hsec)].
    + by apply readQuotaConfig_no_raw.
    + by eapply readQuotaConfig_no_section.
  - intros raw sec gt ot Hraw Hsec Hgt Hot Hne.
    eexists. split; [by eapply readQuotaConfig_section|].
    split; [|split; [|split; [|split]]].
    + rewrite !dom_insert_L, dom_empty_L, (right_id_L ∅ (∪)). apply (comm_L (∪)).
    + intros v n Hv Hn. rewrite lookup_insert_ne, lookup_insert_eq by done.
      f_equal. by eapply MustInt64_present.
    + intros v n Hv Hn. rewrite lookup_insert_eq.
      f_equal. by eapply MustInt64_present.
    + intros Hempty Hv. rewrite lookup_insert_ne, lookup_insert_eq by done.
      f_equal. by apply MustInt64_absent.
    + intros Hempty Hv. rewrite lookup_insert_eq.
      f_equal. by apply MustInt64_absent.
Qed.

Lemma ProvideService_store db cfg bus :
  store_ (fst (ProvideService db cfg bus)) = Some (sqlStore db cfg).
Proof.
  unfold ProvideService.
  destruct (readQuotaConfig cfg) as [limits [e|]]; [done|].
  by destruct (Publish _ _).
Qed.

(** C8: the service ProvideService returns, with or without an error, holds
    the sqlStore built from [db] and [cfg]; forcing the "newDBLibrary"
    toggle on or off selects the same implementation, sqlStore. *)
Theorem ProvideService_store_ignores_toggle db cfg bus :
  store_ (fst (ProvideService db cfg bus)) = Some (sqlStore db cfg) ∧
  is_sqlStore (store_ (fst (ProvideService db (with_toggle cfg true) bus))) = true ∧
  is_sqlStore (store_ (fst (ProvideService db (with_toggle cfg false) bus))) = true.
Proof.
  split; [apply ProvideService_store|].
  by rewrite !ProvideService_store.
Qed.

(** *** Further properties of readQuotaConfig *)

(** X7: when quota.NewTag fails, for the global tag or, after it, for the
    org tag, readQuotaConfig returns that error beside an empty map: no
    limit is reported, whatever the section holds. *)
Theorem readQuotaConfig_tag_error cfg raw sec :
  Raw cfg = Some raw → raw !! "quota" = Some sec →
  (∀ gt e, NewTag QuotaTargetSrv QuotaTarget GlobalScope = (gt, Some e) →
           readQuotaConfig cfg = (∅, Some e)) ∧
  (∀ gt ot e, NewTag QuotaTargetSrv QuotaTarget GlobalScope = (gt, None) →
              NewTag QuotaTargetSrv QuotaTarget OrgScope = (ot, Some e) →
              readQuotaConfig cfg = (∅, Some e)).
Proof.
  intros Hraw Hsec. unfold readQuotaConfig. rewrite Hraw.
  assert (HasSection raw "quota" = true) as -> by (apply HasSection_true; eauto).
  simpl. split.
  - by intros gt e ->.
  - by intros gt ot e -> ->.
Qed.

(** X8: a key whose value does not denote an int64 is read as its default
    (-1 for global_api_key, 10 for org_api_key), and readQuotaConfig
    reports no error for it. *)
Theorem readQuotaConfig_invalid_value_defaults cfg raw sec gt ot :
  Raw cfg = Some raw → raw !! "quota" = Some sec →
  NewTag QuotaTargetSrv QuotaTarget GlobalScope = (gt, None) →
  NewTag QuotaTargetSrv QuotaTarget OrgScope = (ot, None) →
  gt ≠ ot →
  snd (readQuotaConfig cfg) = None ∧
  (∀ v, sec !! "global_api_key" = Some v → ParseInt64 v = None →
        fst (readQuotaConfig cfg) !! gt = Some (-1)) ∧
  (∀ v, sec !! "org_api_key" = Some v → ParseInt64 v = None →
        fst (readQuotaConfig cfg) !! ot = Some 10).
Proof.
  intros Hraw Hsec Hgt Hot Hne.
  rewrite (readQuotaConfig_section _ _ _ _ _ Hraw Hsec Hgt Hot). simpl.
  split; [done|]. split.
  - intros v Hv Hparse. rewrite lookup_insert_ne, lookup_insert_eq by done.
    unfold MustInt64, Key. by rewrite Hv; simpl; rewrite Hparse.
  - intros v Hv Hparse. rewrite lookup_insert_eq.
    unfold MustInt64, Key. by rewrite Hv; simpl; rewrite Hparse.
Qed.


(** X10: readQuotaConfig never returns limits beside an error, and never
    more than two limits. *)
Theorem readQuotaConfig_shape cfg :
  (snd (readQuotaConfig cfg) = None ∨ fst (readQuotaConfig cfg) = ∅) ∧
  (size (fst (readQuotaConfig cfg)) ≤ 2)%nat.
Proof.
  assert ((size (∅ : gmap Tag Z) ≤ 2)%nat) as Hempty by (rewrite map_size_empty; lia).
  unfold readQuotaConfig, Set_.
  destruct (Raw cfg) as [raw|]; [|by split; [left|]].
  destruct (HasSection raw "quota"); simpl; [|by split; [left|]].
  destruct (NewTag _ _ GlobalScope) as [gt [e|]]; [by split; [right|]|].
  destruct (NewTag _ _ OrgScope) as [ot [e|]]; [by split; [right|]|].
  simpl. split; [by left|].
  rewrite !map_size_insert, lookup_empty, map_size_empty.
  destruct (_ !! ot); simpl; lia.
Qed.

End Service.

(** *** A concrete quota package and ini reader *)

(** Decimal int64 literals with an optional sign, as [Key.Int64] accepts
    them. *)
Definition digit (c : ascii) : option Z :=
  let n := Z.of_N (Ascii.N_of_ascii c) in
  if bool_decide (48 ≤ n ≤ 57) then Some (n - 48) else None.

Fixpoint digits (s : string) (acc : Z) : option Z :=
  match s with
  | EmptyString => Some acc
  | String c s' => d ← digit c; digits s' (10 * acc + d)
  end.

Definition in_int64 (n : Z) : option Z :=
  if bool_decide (- 2 ^ 63 ≤ n < 2 ^ 63) then Some n else None.

Definition parse_decimal (s : string) : option Z :=
  match s with
  | EmptyString => None
  | String "-"%char EmptyString => None
  | String "-"%char s' => n ← digits s' 0; in_int64 (- n)
  | _ => n ← digits s 0; in_int64 n
  end.

(** Tags that join service, target and scope with colons. *)
Definition colon_tag (srv target scope : string) : string * option string :=
  (srv +:+ ":" +:+ target +:+ ":" +:+ scope, None).

(** A configuration whose "quota" section sets org_api_key only. *)
Definition demo_cfg : Cfg :=
  mkCfg (Some {[ "quota" := {[ "org_api_key" := "25" ]} ]}) (λ _, false).

Lemma readQuotaConfig_two_scopes_witness :
  @readQuotaConfig parse_decimal string _ _ string string string string
     colon_tag "global" "org" "api_key" "api_key" (mkCfg None (λ _, false)) = (∅, None) ∧
  ∃ limits,
    @readQuotaConfig parse_decimal string _ _ string string string string
       colon_tag "global" "org" "api_key" "api_key" demo_cfg = (limits, None) ∧
    dom limits = {[ "api_key:api_key:global"; "api_key:api_key:org" ]} ∧
    limits !! "api_key:api_key:org" = Some 25 ∧
    limits !! "api_key:api_key:global" = Some (-1).
Proof.
  split.
  - apply (readQuotaConfig_two_scopes parse_decimal string string string string
             colon_tag "global" "org" "api_key" "api_key" (mkCfg None (λ _, false))).
    by left.
  - destruct (readQuotaConfig_two_scopes parse_decimal string string string string
                colon_tag "global" "org" "api_key" "api_key" demo_cfg) as [_ Hsec].
    destruct (Hsec {[ "quota" := {[ "org_api_key" := "25" ]} ]} {[ "org_api_key" := "25" ]}
                "api_key:api_key:global" "api_key:api_key:org"
                eq_refl eq_refl eq_refl eq_refl ltac:(discriminate))
      as (limits & Hres & Hdom & _ & Horg & Hglobal & _).
    exists limits. split; [exact Hres|]. split; [exact Hdom|]. split.
    + apply (Horg "25" 25); reflexivity.
    + apply Hglobal; reflexivity.
Defined.

(** A quota package that does not know the org scope, and a section whose
    values are words. *)
Definition global_only_tag (srv target scope : string) : string * option string :=
  if String.eqb scope "org" then ("", Some "invalid scope") else colon_tag srv target scope.

Definition demo_words_cfg : Cfg :=
  mkCfg (Some {[ "quota" := {[ "global_api_key" := "unlimited"; "org_api_key" := "ten" ]} ]})
        (λ _, false).


Lemma readQuotaConfig_tag_error_witness :
  @readQuotaConfig parse_decimal string _ _ string string string string
     global_only_tag "global" "org" "api_key" "api_key" demo_cfg = (∅, Some "invalid scope").
Proof.
  destruct (readQuotaConfig_tag_error parse_decimal string string string string
              global_only_tag "global" "org" "api_key" "api_key" demo_cfg
              ({[ "quota" := {[ "org_api_key" := "25" ]} ]} : IniFile)
              ({[ "org_api_key" := "25" ]} : IniSection)
              eq_refl eq_refl) as [_ Horg].
  exact (Horg "api_key:api_key:global" "" "invalid scope" eq_refl eq_refl).
Defined.

Lemma readQuotaConfig_invalid_value_defaults_witness :
  snd (@readQuotaConfig parse_decimal string _ _ string string string string
         colon_tag "global" "org" "api_key" "api_key" demo_words_cfg) = None ∧
  fst (@readQuotaConfig parse_decimal string _ _ string string string string
         colon_tag "global" "org" "api_key" "api_key" demo_words_cfg)
    !! "api_key:api_key:global" = Some (-1) ∧
  fst (@readQuotaConfig parse_decimal string _ _ string string string string
         colon_tag "global" "org" "api_key" "api_key" demo_words_cfg)
    !! "api_key:api_key:org" = Some 10.
Proof.
  destruct (readQuotaConfig_invalid_value_defaults parse_decimal string string string string
              colon_tag "global" "org" "api_key" "api_key" demo_words_cfg
              ({[ "quota" := {[ "global_api_key" := "unlimited"; "org_api_key" := "ten" ]} ]}
                 : IniFile)
              ({[ "global_api_key" := "unlimited"; "org_api_key" := "ten" ]} : IniSection)
              "api_key:api_key:global" "api_key:api_key:org"
              eq_refl eq_refl eq_refl eq_refl ltac:(discriminate))
    as (Herr & Hglobal & Horg).
  split; [exact Herr|]. split.
  - apply (Hglobal "unlimited"); reflexivity.
  - apply (Horg "ten"); reflexivity.
Defined.


End Apikey.

(** ** pkg/kindsys *)

Module Kindsys.

(** [cue.Selector]s and paths built by [cue.MakePath]. *)
Inductive Selector :=
  | Def (name : string)
  | Str (name : string).

Definition MakePath (sels : list Selector) : list Selector := sels.

(** The CUE and Thema runtimes, as far as load.go calls them.  [Validate]
    is [Value.Validate(cue.Concrete(false), cue.All())]. *)
Class CueRuntime := {
  Value : Type;
  CueContext : Type;
  CueContext_eq_dec :: EqDecision CueContext;
  CueError : Type;
  Instance_ : Type;
  FS : Type;
  Runtime : Type;
  Lineage : Type;
  BindOption : Type;
  zeroValue : Value;
  Exists : Value → bool;
  ContextOf : Value → option CueContext;
  LookupPath : Value → list Selector → Value;
  Unify : Value → Value → Value;
  Validate : Value → option CueError;
  Err : Value → option CueError;
  Details : CueError → string;
  BuildInstance : CueContext → Instance_ → Value;
  InstancesWithThema : FS → string → Instance_ * option CueError;
  BindLineage : Value → Runtime → list BindOption → option Lineage * option CueError;
  (** [grafana.CueSchemaFS], [cuectx.GrafanaCUEContext()] and
      [cuectx.GrafanaThemaRuntime()]. *)
  CueSchemaFS : FS;
  GrafanaCUEContext : CueContext;
  GrafanaThemaRuntime : Runtime
}.

(** The closed set of kind categories: the type parameter of [ToKindMeta]. *)
Inductive Category :=
  | Raw
  | CoreStructured
  | CustomStructured
  | SlotImpl.

Section Load.

Context {cue : CueRuntime}.

(** The four metadata structs and their zero values ([new(T)]). *)
Variables RawMeta CoreStructuredMeta CustomStructuredMeta SlotImplMeta : Type.
Variable zeroRawMeta : RawMeta.
Variable zeroCoreStructuredMeta : CoreStructuredMeta.
Variable zeroCustomStructuredMeta : CustomStructuredMeta.
Variable zeroSlotImplMeta : SlotImplMeta.

Definition KindMetas (T : Category) : Type :=
  match T with
  | Raw => RawMeta
  | CoreStructured => CoreStructuredMeta
  | CustomStructured => CustomStructuredMeta
  | SlotImpl => SlotImplMeta
  end.

Definition zeroMeta (T : Category) : KindMetas T :=
  match T with
  | Raw => zeroRawMeta
  | CoreStructured => zeroCoreStructuredMeta
  | CustomStructured => zeroCustomStructuredMeta
  | SlotImpl => zeroSlotImplMeta
  end.

(** [Value.Decode] into a metadata struct. *)
Variable Decode : ∀ T : Category, Value → KindMetas T + CueError.

(** The interface [SomeKindMeta]: a value of one of the four structs. *)
Inductive SomeKindMeta :=
  | SomeRawMeta (m : RawMeta)
  | SomeCoreStructuredMeta (m : CoreStructuredMeta)
  | SomeCustomStructuredMeta (m : CustomStructuredMeta)
  | SomeSlotImplMeta (m : SlotImplMeta).

(** [any(meta).(SomeKindMeta)] *)
Definition toSome (T : Category) : KindMetas T → SomeKindMeta :=
  match T with
  | Raw => SomeRawMeta
  | CoreStructured => SomeCoreStructuredMeta
  | CustomStructured => SomeCustomStructuredMeta
  | SlotImpl => SomeSlotImplMeta
  end.

(** Errors: the two sentinels of the package, errors of the CUE runtime,
    and the two wrappers the file builds.  [ewrap actual is_] is the
    package's [ewrap(actual, is)]; [Errorf msg e] is [fmt.Errorf] with one
    wrapped error. *)
Inductive error :=
  | ErrValueNotExist
  | ErrValueNotAKind
  | FromCue (e : CueError)
  | ewrap (actual : option CueError) (is_ : error)
  | Errorf (msg : string) (wrapped : error).

(** Panics propagate through the callers. *)
#[local] Instance outcome_ret : MRet outcome := λ A a, Returns a.

#[local] Instance outcome_bind : MBind outcome :=
  λ A B k m, match m with Returns a => k a | Panics msg => Panics msg end.

(** [filepath.Join("/pkg", "kindsys")]: an absolute path, so that
    [doLoadFrameworkCUE] never takes its [filepath.Abs] branch. *)
Definition prefix : string := "/pkg/kindsys".

Definition doLoadFrameworkCUE (ctx : CueContext) : Value * option error :=
  let v := zeroValue in
  let absolutePath := prefix in
  let '(bi, err) := InstancesWithThema CueSchemaFS absolutePath in
  match err with
  | Some e => (v, Some (FromCue e))
  | None =>
      let v := BuildInstance ctx bi in
      match Validate v with
      | Some e => (zeroValue, Some (Errorf "coremodel framework loaded cue.Value has err: %w" (FromCue e)))
      | None => (v, None)
      end
  end.

(** The package variable [defaultFramework], as [init] left it: the value
    of [doLoadFrameworkCUE] at the singleton context. *)
Variable defaultFramework : Value.

Definition CUEFramework (ctx : option CueContext) : Value :=
  match ctx with
  | None => defaultFramework
  | Some ctx =>
      if decide (ctx = GrafanaCUEContext) then defaultFramework
      else fst (doLoadFrameworkCUE ctx)
  end.

(** The switch of [ToKindMeta]: the framework definition of a category. *)
Definition kdef (T : Category) (fw : Value) : Value :=
  match T with
  | Raw => LookupPath fw (MakePath [Def "Raw"])
  | CoreStructured => LookupPath fw (MakePath [Def "CoreStructured"])
  | CustomStructured => LookupPath fw (MakePath [Def "CustomStructured"])
  | SlotImpl => LookupPath fw (MakePath [Def "Slot"])
  end.

Definition ToKindMeta (T : Category) (v : Value) : outcome (KindMetas T * option error) :=
  let meta := zeroMeta T in
  if negb (Exists v) then Returns (meta, Some ErrValueNotExist)
  else
    let fw := CUEFramework (ContextOf v) in
    let kdef := kdef T fw in
    let item := Unify v kdef in
    match Validate item with
    | Some _ => Returns (meta, Some (ewrap (Err item) ErrValueNotAKind))
    | None =>
        match Decode T item with
        | inr err => Panics (Details err)
        | inl meta => Returns (meta, None)
        end
    end.

Definition ToSomeKindMeta (v : Value) : outcome (option SomeKindMeta * option error) :=
  if negb (Exists v) then Returns (None, Some ErrValueNotExist)
  else
    '(meta, err) ← ToKindMeta Raw v;
    if err is None then Returns (Some (SomeRawMeta meta), None) else
    '(meta, err) ← ToKindMeta CoreStructured v;
    if err is None then Returns (Some (SomeCoreStructuredMeta meta), None) else
    '(meta, err) ← ToKindMeta CustomStructured v;
    if err is None then Returns (Some (SomeCustomStructuredMeta meta), None) else
    '(meta, err) ← ToKindMeta SlotImpl v;
    if err is None then Returns (Some (SomeSlotImplMeta meta), None) else
    Returns (None, Some ErrValueNotAKind).

(** [SomeDecl]: [Meta] is an interface value and may be nil. *)
Record SomeDecl := mkSomeDecl {
  V : Value;
  Meta : option SomeKindMeta
}.

Definition BindKindLineage (decl : SomeDecl) (rt : option Runtime) (opts : list BindOption)
  : outcome (option Lineage * option CueError) :=
  let rt := match rt with None => GrafanaThemaRuntime | Some rt => rt end in
  match Meta decl with
  | Some (SomeRawMeta _) => Returns (None, None)
  | Some (SomeCoreStructuredMeta _)
  | Some (SomeCustomStructuredMeta _)
  | Some (SomeSlotImplMeta _) =>
      Returns (BindLineage (LookupPath (V decl) (MakePath [Str "lineage"])) rt opts)
  | None => Panics "unreachable"
  end.

Definition IsRaw (decl : SomeDecl) : bool :=
  match Meta decl with Some (SomeRawMeta _) => true | _ => false end.

Definition IsCoreStructured (decl : SomeDecl) : bool :=
  match Meta decl with Some (SomeCoreStructuredMeta _) => true | _ => false end.

Definition IsCustomStructured (decl : SomeDecl) : bool :=
  match Meta decl with Some (SomeCustomStructuredMeta _) => true | _ => false end.

Definition IsSlotImpl (decl : SomeDecl) : bool :=
  match Meta decl with Some (SomeSlotImplMeta _) => true | _ => false end.

(** The unification [ToKindMeta] validates, and whether it validates. *)
Definition kind_item (T : Category) (v : Value) : Value :=
  Unify v (kdef T (CUEFramework (ContextOf v))).

Definition validates (T : Category) (v : Value) : bool :=
  match Validate (kind_item T v) with
  | None => true
  | Some _ => false
  end.

(** The words of the specification: the first of the four categories, in
    the order raw, core-structured, custom-structured, slot-implementation,
    that validates. *)
Definition first_valid (v : Value) : option Category :=
  List.find (λ T, validates T v) [Raw; CoreStructured; CustomStructured; SlotImpl].

Lemma ToKindMeta_not_exists T v :
  Exists v = false → ToKindMeta T v = Returns (zeroMeta T, Some ErrValueNotExist).
Proof. unfold ToKindMeta. by intros ->. Qed.

Lemma ToKindMeta_exists T v :
  Exists v = true →
  ToKindMeta T v =
    match Validate (kind_item T v) with
    | Some _ => Returns (zeroMeta T, Some (ewrap (Err (kind_item T v)) ErrValueNotAKind))
    | None =>
        match Decode T (kind_item T v) with
        | inr err => Panics (Details err)
        | inl meta => Returns (meta, None)
        end
    end.
Proof. unfold ToKindMeta, kind_item. by intros ->. Qed.

Lemma ToKindMeta_invalid T v :
  Exists v = true → validates T v = false →
  ToKindMeta T v = Returns (zeroMeta T, Some (ewrap (Err (kind_item T v)) ErrValueNotAKind)).
Proof.
  intros Hex Hval. rewrite ToKindMeta_exists by done.
  unfold validates in Hval. by destruct (Validate _).
Qed.

Lemma ToKindMeta_valid T v m :
  Exists v = true → validates T v = true → Decode T (kind_item T v) = inl m →
  ToKindMeta T v = Returns (m, None).
Proof.
  intros Hex Hval Hdec. rewrite ToKindMeta_exists by done.
  unfold validates in Hval. destruct (Validate _); [done|]. by rewrite Hdec.
Qed.

Lemma ToKindMeta_diverged T v err :
  Exists v = true → validates T v = true → Decode T (kind_item T v) = inr err →
  ToKindMeta T v = Panics (Details err).
Proof.
  intros Hex Hval Hdec. rewrite ToKindMeta_exists by done.
  unfold validates in Hval. destruct (Validate _); [done|]. by rewrite Hdec.
Qed.

(** C3: ToKindMeta[T](v) returns metadata with a nil error only if [v]
    exists, its unification with the framework definition of T's category
    validates, and the metadata is what that unification decodes to.  If
    [v] does not exist it returns ErrValueNotExist; if the unification does
    not validate it returns ewrap(item.Err(), ErrValueNotAKind); in both
    cases the struct returned beside the error is the zero value of T. *)
Theorem ToKindMeta_trusted_only_if_valid T v :
  (∀ m, ToKindMeta T v = Returns (m, None) →
        Exists v = true ∧ Validate (kind_item T v) = None ∧
        Decode T (kind_item T v) = inl m) ∧
  (Exists v = false →
     ToKindMeta T v = Returns (zeroMeta T, Some ErrValueNotExist)) ∧
  (Exists v = true → ∀ e, Validate (kind_item T v) = Some e →
     ToKindMeta T v =
       Returns (zeroMeta T, Some (ewrap (Err (kind_item T v)) ErrValueNotAKind))).
Proof.
  split; [|split].
  - intros m. destruct (Exists v) eqn:Hex.
    + rewrite ToKindMeta_exists by done.
      destruct (Validate (kind_item T v)); [done|].
      destruct (Decode T (kind_item T v)); [|done].
      by intros [= ->].
    + by rewrite ToKindMeta_not_exists.
  - apply ToKindMeta_not_exists.
  - intros Hex e He. rewrite ToKindMeta_exists by done. by rewrite He.
Qed.

Lemma ToSomeKindMeta_not_exists v :
  Exists v = false → ToSomeKindMeta v = Returns (None, Some ErrValueNotExist).
Proof. unfold ToSomeKindMeta. by intros ->. Qed.

(** One attempt of [ToSomeKindMeta]: what happens at a category, given
    what the attempts after it amount to. *)
Definition attempt (T : Category) (v : Value)
    (rest : outcome (option SomeKindMeta * option error))
  : outcome (option SomeKindMeta * option error) :=
  '(meta, err) ← ToKindMeta T v;
  if err is None then Returns (Some (toSome T meta), None) else rest.

Lemma ToSomeKindMeta_attempts v :
  Exists v = true →
  ToSomeKindMeta v =
    attempt Raw v (attempt CoreStructured v (attempt CustomStructured v
      (attempt SlotImpl v (Returns (None, Some ErrValueNotAKind))))).
Proof. unfold ToSomeKindMeta, attempt. by intros ->. Qed.

Lemma attempt_invalid T v rest :
  Exists v = true → validates T v = false → attempt T v rest = rest.
Proof. intros Hex Hval. unfold attempt. by rewrite ToKindMeta_invalid. Qed.

Lemma attempt_valid T v m rest :
  Exists v = true → validates T v = true → Decode T (kind_item T v) = inl m →
  attempt T v rest = Returns (Some (toSome T m), None).
Proof. intros Hex Hval Hdec. unfold attempt. by erewrite ToKindMeta_valid. Qed.

Lemma attempt_diverged T v err rest :
  Exists v = true → validates T v = true → Decode T (kind_item T v) = inr err →
  attempt T v rest = Panics (Details err).
Proof. intros Hex Hval Hdec. unfold attempt. by erewrite ToKindMeta_diverged. Qed.

(** C4: ToSomeKindMeta returns ErrValueNotExist when [v] does not exist.
    For an existing [v] it returns the metadata decoded for the first
    category, in the order raw, core-structured, custom-structured,
    slot-implementation, whose unification validates, with a nil error; and
    it returns ErrValueNotAKind when none of the four validates. *)
Theorem ToSomeKindMeta_first_valid v :
  (Exists v = false → ToSomeKindMeta v = Returns (None, Some ErrValueNotExist)) ∧
  (Exists v = true →
     (∀ T m, first_valid v = Some T → Decode T (kind_item T v) = inl m →
             ToSomeKindMeta v = Returns (Some (toSome T m), None)) ∧
     (first_valid v = None →
        ToSomeKindMeta v = Returns (None, Some ErrValueNotAKind))).
Proof.
  split; [apply ToSomeKindMeta_not_exists|].
  intros Hex. rewrite ToSomeKindMeta_attempts by done.
  unfold first_valid. simpl.
  destruct (validates Raw v) eqn:H1.
  { split; [|done]. intros T m [= <-] Hdec. by apply attempt_valid. }
  rewrite (attempt_invalid Raw) by done.
  destruct (validates CoreStructured v) eqn:H2.
  { split; [|done]. intros T m [= <-] Hdec. by apply attempt_valid. }
  rewrite (attempt_invalid CoreStructured) by done.
  destruct (validates CustomStructured v) eqn:H3.
  { split; [|done]. intros T m [= <-] Hdec. by apply attempt_valid. }
  rewrite (attempt_invalid CustomStructured) by done.
  destruct (validates SlotImpl v) eqn:H4.
  { split; [|done]. intros T m [= <-] Hdec. by apply attempt_valid. }
  rewrite (attempt_invalid SlotImpl) by done.
  split; [done|done].
Qed.

(** When the first category that validates does not decode, the Go structs
    and the CUE framework have diverged, and [ToSomeKindMeta] panics. *)
Lemma ToSomeKindMeta_diverged v T err :
  Exists v = true → first_valid v = Some T → Decode T (kind_item T v) = inr err →
  ToSomeKindMeta v = Panics (Details err).
Proof.
  intros Hex Hfirst Hdec. rewrite ToSomeKindMeta_attempts by done.
  unfold first_valid in Hfirst. simpl in Hfirst.
  destruct (validates Raw v) eqn:H1.
  { injection Hfirst as <-. by apply attempt_diverged. }
  rewrite (attempt_invalid Raw) by done.
  destruct (validates CoreStructured v) eqn:H2.
  { injection Hfirst as <-. by apply attempt_diverged. }
  rewrite (attempt_invalid CoreStructured) by done.
  destruct (validates CustomStructured v) eqn:H3.
  { injection Hfirst as <-. by apply attempt_diverged. }
  rewrite (attempt_invalid CustomStructured) by done.
  destruct (validates SlotImpl v) eqn:H4; [|done].
  injection Hfirst as <-. by apply attempt_diverged.
Qed.

(** C10: for a declaration whose Meta is a RawMeta (IsRaw holds),
    BindKindLineage returns (nil, nil); for a core-structured,
    custom-structured or slot-implementation declaration it returns what
    thema.BindLineage returns for the value at the declaration's "lineage"
    path, with the given runtime (Grafana's own when nil) and options. *)
Theorem BindKindLineage_by_category decl rt opts :
  (IsRaw decl = true → BindKindLineage decl rt opts = Returns (None, None)) ∧
  (IsCoreStructured decl = true ∨ IsCustomStructured decl = true ∨ IsSlotImpl decl = true →
     BindKindLineage decl rt opts =
       Returns (BindLineage (LookupPath (V decl) [Str "lineage"])
                            (default GrafanaThemaRuntime rt) opts)).
Proof.
  unfold IsRaw, IsCoreStructured, IsCustomStructured, IsSlotImpl, BindKindLineage.
  destruct (Meta decl) as [[m|m|m|m]|]; destruct rt; simpl; split; try done;
    intros [?|[?|?]]; done.
Qed.

(** *** The rest of load.go *)

(** [cuectx.BuildGrafanaInstance]; the context and the overlay may be nil. *)
Variable BuildGrafanaInstance :
  string → string → option CueContext → option FS → Value * option CueError.

(** [LoadAnyKindFS], for a context that is not nil. *)
Definition LoadAnyKindFS (kfs : FS) (path : string) (ctx : CueContext)
  : outcome (option SomeDecl * option error) :=
  let '(inst, err) := InstancesWithThema kfs path in
  match err with
  | Some e => Returns (None, Some (FromCue e))
  | None =>
      let vk := BuildInstance ctx inst in
      match Validate vk with
      | Some e => Returns (None, Some (FromCue e))
      | None =>
          '(meta, err) ← ToSomeKindMeta vk;
          let pkd := mkSomeDecl vk meta in
          match err with
          | Some e => Returns (None, Some e)
          | None => Returns (Some pkd, None)
          end
      end
  end.

(** [Decl[T]]: a declaration whose category is known statically. *)
Record Decl (T : Category) := mkDecl {
  Decl_V : Value;
  Decl_Meta : KindMetas T
}.
Arguments mkDecl {T}.
Arguments Decl_V {T}.
Arguments Decl_Meta {T}.

(** [Decl.Some] *)
Definition Some_ {T : Category} (decl : Decl T) : SomeDecl :=
  mkSomeDecl (Decl_V decl) (Some (toSome T (Decl_Meta decl))).

(** The type parameter of [LoadCoreKind]: [RawMeta | CoreStructuredMeta]. *)
Inductive CoreKindMetas :=
  | CoreRaw
  | CoreCoreStructured.

Definition category_of (T : CoreKindMetas) : Category :=
  match T with
  | CoreRaw => Raw
  | CoreCoreStructured => CoreStructured
  end.

Definition LoadCoreKind (T : CoreKindMetas) (declpath : string)
    (ctx : option CueContext) (overlay : option FS)
  : outcome (option (Decl (category_of T)) * option error) :=
  let '(vk, err) := BuildGrafanaInstance declpath "kind" ctx overlay in
  match err with
  | Some e => Returns (None, Some (FromCue e))
  | None =>
      '(meta, err) ← ToKindMeta (category_of T) vk;
      let decl := mkDecl vk meta in
      match err with
      | Some e => Returns (None, Some e)
      | None => Returns (Some decl, None)
      end
  end.

(** The outcomes of [ToSomeKindMeta] on an existing value, by the first
    category that validates. *)
Lemma ToSomeKindMeta_exists v :
  Exists v = true →
  ToSomeKindMeta v =
    match first_valid v with
    | None => Returns (None, Some ErrValueNotAKind)
    | Some T =>
        match Decode T (kind_item T v) with
        | inl m => Returns (Some (toSome T m), None)
        | inr err => Panics (Details err)
        end
    end.
Proof.
  intros Hex. destruct (first_valid v) as [T|] eqn:Hfirst.
  - destruct (Decode T (kind_item T v)) as [m|err] eqn:Hdec.
    + rewrite ToSomeKindMeta_attempts by done.
      unfold first_valid in Hfirst. simpl in Hfirst.
      destruct (validates Raw v) eqn:H1.
      { injection Hfirst as <-. by apply attempt_valid. }
      rewrite (attempt_invalid Raw) by done.
      destruct (validates CoreStructured v) eqn:H2.
      { injection Hfirst as <-. by apply attempt_valid. }
      rewrite (attempt_invalid CoreStructured) by done.
      destruct (validates CustomStructured v) eqn:H3.
      { injection Hfirst as <-. by apply attempt_valid. }
      rewrite (attempt_invalid CustomStructured) by done.
      destruct (validates SlotImpl v) eqn:H4; [|done].
      injection Hfirst as <-. by apply attempt_valid.
    + by eapply ToSomeKindMeta_diverged.
  - rewrite ToSomeKindMeta_attempts by done.
    unfold first_valid in Hfirst. simpl in Hfirst.
    destruct (validates Raw v) eqn:H1; [done|].
    destruct (validates CoreStructured v) eqn:H2; [done|].
    destruct (validates CustomStructured v) eqn:H3; [done|].
    destruct (validates SlotImpl v) eqn:H4; [done|].
    by rewrite !attempt_invalid.
Qed.

Lemma first_valid_Some v T :
  first_valid v = Some T → validates T v = true.
Proof.
  unfold first_valid. simpl.
  repeat (case_match; [by intros [= <-]|]). done.
Qed.

Lemma first_valid_None v T : first_valid v = None → validates T v = false.
Proof.
  unfold first_valid. simpl.
  repeat (case_match; [done|]). intros _. by destruct T.
Qed.

(** X11: doLoadFrameworkCUE returns either a value that validates, with a
    nil error, or an error beside the zero value: never a value that was
    built but does not validate. *)
Theorem doLoadFrameworkCUE_valid_or_zero ctx :
  (snd (doLoadFrameworkCUE ctx) = None ∧ Validate (fst (doLoadFrameworkCUE ctx)) = None) ∨
  (is_Some (snd (doLoadFrameworkCUE ctx)) ∧ fst (doLoadFrameworkCUE ctx) = zeroValue).
Proof.
  unfold doLoadFrameworkCUE.
  destruct (InstancesWithThema CueSchemaFS prefix) as [bi [e|]]; simpl.
  - right. by split; [eexists|].
  - destruct (Validate (BuildInstance ctx bi)) as [e|] eqn:Hval; simpl.
    + right. by split; [eexists|].
    + left. by split.
Qed.

(** X12: the framework kept by the package is indistinguishable from a
    fresh load: when defaultFramework is what doLoadFrameworkCUE gives for
    Grafana's context, CUEFramework(ctx) is what doLoadFrameworkCUE gives
    for ctx, and for Grafana's context when ctx is nil. *)
Theorem CUEFramework_is_load ctx :
  defaultFramework = fst (doLoadFrameworkCUE GrafanaCUEContext) →
  CUEFramework ctx = fst (doLoadFrameworkCUE (default GrafanaCUEContext ctx)).
Proof.
  intros Hinit. unfold CUEFramework. destruct ctx as [ctx|]; simpl; [|done].
  destruct (decide (ctx = GrafanaCUEContext)) as [->|]; done.
Qed.



(** X15: ToSomeKindMeta returns metadata with a nil error, or nil with one
    of the two sentinels, or panics: the validation errors of the four
    attempts are never returned.  It returns ErrValueNotExist exactly when
    the value does not exist. *)
Theorem ToSomeKindMeta_outcomes v :
  ((∃ meta, ToSomeKindMeta v = Returns (Some meta, None)) ∨
   ToSomeKindMeta v = Returns (None, Some ErrValueNotExist) ∨
   ToSomeKindMeta v = Returns (None, Some ErrValueNotAKind) ∨
   (∃ msg, ToSomeKindMeta v = Panics msg)) ∧
  (ToSomeKindMeta v = Returns (None, Some ErrValueNotExist) ↔ Exists v = false).
Proof.
  destruct (Exists v) eqn:Hex.
  - rewrite ToSomeKindMeta_exists by done.
    destruct (first_valid v) as [T|]; [destruct (Decode T _)|].
    + split; [left; by eexists|]. by split.
    + split; [right; right; right; by eexists|]. by split.
    + split; [by right; right; left|]. by split.
  - rewrite ToSomeKindMeta_not_exists by done. split; [by right; left|]. by split.
Qed.

(** X16: metadata returned by ToSomeKindMeta is metadata ToKindMeta returns:
    it belongs to the first category that validates, and ToKindMeta of
    that category returns the same struct with a nil error. *)
Theorem ToSomeKindMeta_sound v meta :
  ToSomeKindMeta v = Returns (Some meta, None) →
  ∃ T m, meta = toSome T m ∧ first_valid v = Some T ∧
         ToKindMeta T v = Returns (m, None).
Proof.
  destruct (Exists v) eqn:Hex; [|by rewrite ToSomeKindMeta_not_exists].
  rewrite ToSomeKindMeta_exists by done.
  destruct (first_valid v) as [T|] eqn:Hfirst; [|done].
  destruct (Decode T (kind_item T v)) as [m|err] eqn:Hdec; [|done].
  intros [= <-]. exists T, m. split; [done|]. split; [done|].
  apply ToKindMeta_valid; [done| |done]. by apply first_valid_Some.
Qed.

(** X17: ToSomeKindMeta reports ErrValueNotAKind only for a value that
    ToKindMeta rejects at every category, each time with an error wrapping
    ErrValueNotAKind. *)
Theorem ToSomeKindMeta_not_a_kind v :
  ToSomeKindMeta v = Returns (None, Some ErrValueNotAKind) →
  Exists v = true ∧
  ∀ T, ToKindMeta T v =
         Returns (zeroMeta T, Some (ewrap (Err (kind_item T v)) ErrValueNotAKind)).
Proof.
  destruct (Exists v) eqn:Hex; [|by rewrite ToSomeKindMeta_not_exists].
  rewrite ToSomeKindMeta_exists by done.
  destruct (first_valid v) as [T|] eqn:Hfirst.
  { by destruct (Decode T (kind_item T v)). }
  intros _. split; [done|]. intros T.
  apply ToKindMeta_invalid; [done|]. by apply first_valid_None.
Qed.

(** X18: LoadAnyKindFS returns a declaration or an error, never both and
    never neither.  A declaration it returns holds a value that validates
    and the metadata ToSomeKindMeta gives for that value, so that
    BindKindLineage never panics on it. *)
Theorem LoadAnyKindFS_loaded kfs path ctx :
  (∀ pkd err, LoadAnyKindFS kfs path ctx = Returns (pkd, err) →
              (is_Some pkd ↔ err = None)) ∧
  (∀ decl, LoadAnyKindFS kfs path ctx = Returns (Some decl, None) →
           Validate (V decl) = None ∧
           ToSomeKindMeta (V decl) = Returns (Meta decl, None) ∧
           ∀ rt opts, ∃ r, BindKindLineage decl rt opts = Returns r).
Proof.
  unfold LoadAnyKindFS.
  destruct (InstancesWithThema kfs path) as [inst [e|]].
  { split; [|done]. intros pkd err [= <- <-]. split; [by intros [? ?]|done]. }
  destruct (Validate (BuildInstance ctx inst)) as [e|] eqn:Hval.
  { split; [|done]. intros pkd err [= <- <-]. split; [by intros [? ?]|done]. }
  pose proof (ToSomeKindMeta_outcomes (BuildInstance ctx inst))
    as [[[meta Hm]|[Hm|[Hm|[msg Hm]]]] _]; rewrite Hm; simpl.
  - split.
    + intros pkd err [= <- <-]. split; [done|]. intros _. by eexists.
    + intros decl [= <-]. simpl. split; [done|]. split; [done|].
      intros rt opts. unfold BindKindLineage. simpl.
      destruct meta; by eexists.
  - split; [|done]. intros pkd err [= <- <-]. split; [by intros [? ?]|done].
  - split; [|done]. intros pkd err [= <- <-]. split; [by intros [? ?]|done].
  - by split.
Qed.

(** X19: Decl.Some keeps the value, and the category test that holds of
    the result is the one of the declaration's type parameter. *)
Theorem Some_keeps_category (T : Category) (decl : Decl T) :
  V (Some_ decl) = Decl_V decl ∧
  (IsRaw (Some_ decl), IsCoreStructured (Some_ decl),
   IsCustomStructured (Some_ decl), IsSlotImpl (Some_ decl)) =
    match T with
    | Raw => (true, false, false, false)
    | CoreStructured => (false, true, false, false)
    | CustomStructured => (false, false, true, false)
    | SlotImpl => (false, false, false, true)
    end.
Proof. by destruct T. Qed.

(** X20: a declaration LoadCoreKind returns holds the value that was built
    and the metadata ToKindMeta gives for it at the requested category; a
    raw declaration so loaded binds to no lineage, without an error. *)
Theorem LoadCoreKind_loaded T declpath ctx overlay decl :
  LoadCoreKind T declpath ctx overlay = Returns (Some decl, None) →
  BuildGrafanaInstance declpath "kind" ctx overlay = (Decl_V decl, None) ∧
  ToKindMeta (category_of T) (Decl_V decl) = Returns (Decl_Meta decl, None) ∧
  (T = CoreRaw → ∀ rt opts, BindKindLineage (Some_ decl) rt opts = Returns (None, None)).
Proof.
  unfold LoadCoreKind.
  destruct (BuildGrafanaInstance declpath "kind" ctx overlay) as [vk [e|]]; [done|].
  destruct (ToKindMeta (category_of T) vk) as [[meta [e|]]|msg] eqn:Hmeta; simpl; try done.
  intros [= <-]. simpl. split; [done|]. split; [done|].
  intros -> rt opts. done.
Qed.

End Load.

(** *** A small CUE runtime *)

(** Values: the framework package, its definitions, kind declarations
    (category and name), their lineages, failed unifications, and the
    value that does not exist. *)
Inductive ToyValue :=
  | Missing
  | Framework
  | Schema (name : string)
  | Kind (category name : string)
  | LineageOf (name : string)
  | Bottom (msg : string).

Definition toyLookupPath (v : ToyValue) (p : list Selector) : ToyValue :=
  match v, p with
  | Framework, [Def name] => Schema name
  | Kind category name, [Str "lineage"] =>
      if String.eqb category "Raw" then Missing else LineageOf name
  | _, _ => Missing
  end.

Definition toyUnify (v w : ToyValue) : ToyValue :=
  match v, w with
  | Kind category name, Schema s =>
      if String.eqb category s then Kind category name else Bottom "conflicting values"
  | _, _ => Bottom "unsupported"
  end.

Definition toyErr (v : ToyValue) : option string :=
  match v with
  | Bottom msg => Some msg
  | _ => None
  end.

Definition toyBindLineage (v : ToyValue) (rt : string) (opts : list unit)
  : option string * option string :=
  match v with
  | LineageOf name => (Some (name +:+ "@" +:+ rt), None)
  | _ => (None, Some "not a lineage")
  end.

#[local] Instance toy : CueRuntime := {|
  Value := ToyValue;
  CueContext := unit;
  CueError := string;
  Instance_ := unit;
  FS := unit;
  Runtime := string;
  Lineage := string;
  BindOption := unit;
  zeroValue := Missing;
  Exists := λ v, match v with Missing => false | _ => true end;
  ContextOf := λ _, Some tt;
  LookupPath := toyLookupPath;
  Unify := toyUnify;
  Validate := toyErr;
  Err := toyErr;
  Details := λ e, e;
  BuildInstance := λ _ _, Framework;
  InstancesWithThema := λ _ _, (tt, None);
  BindLineage := toyBindLineage;
  CueSchemaFS := tt;
  GrafanaCUEContext := tt;
  GrafanaThemaRuntime := "grafana"
|}.

(** Every metadata struct is the kind's name. *)
Definition toyDecode (T : Category) (v : ToyValue)
  : KindMetas string string string string T + string :=
  match v with
  | Kind _ name =>
      inl (match T return KindMetas string string string string T with
           | Raw | CoreStructured | CustomStructured | SlotImpl => name
           end)
  | _ => inr "cannot decode"
  end.

Definition toyToKindMeta :=
  @ToKindMeta toy string string string string "" "" "" "" toyDecode Framework.

Definition toyToSomeKindMeta :=
  @ToSomeKindMeta toy string string string string "" "" "" "" toyDecode Framework.

Definition toyDecl (v : ToyValue) (m : SomeKindMeta string string string string)
  : @SomeDecl toy string string string string :=
  @mkSomeDecl toy string string string string v (Some m).

Lemma ToKindMeta_trusted_only_if_valid_witness :
  (@Exists toy (Kind "CoreStructured" "dashboard") = true ∧
   @Validate toy (@kind_item toy Framework CoreStructured (Kind "CoreStructured" "dashboard")) = None ∧
   toyDecode CoreStructured
     (@kind_item toy Framework CoreStructured (Kind "CoreStructured" "dashboard")) =
     inl "dashboard") ∧
  toyToKindMeta CoreStructured Missing = Returns ("", Some ErrValueNotExist) ∧
  toyToKindMeta CoreStructured (Kind "Raw" "svg") =
    Returns ("", Some (ewrap (Some "conflicting values") ErrValueNotAKind)).
Proof.
  split; [|split].
  - apply (@ToKindMeta_trusted_only_if_valid toy string string string string "" "" "" ""
             toyDecode Framework CoreStructured (Kind "CoreStructured" "dashboard")).
    reflexivity.
  - apply (@ToKindMeta_trusted_only_if_valid toy string string string string "" "" "" ""
             toyDecode Framework CoreStructured Missing).
    reflexivity.
  - apply (@ToKindMeta_trusted_only_if_valid toy string string string string "" "" "" ""
             toyDecode Framework CoreStructured (Kind "Raw" "svg"))
      with (e := "conflicting values"); reflexivity.
Defined.

Lemma ToSomeKindMeta_first_valid_witness :
  toyToSomeKindMeta Missing = Returns (None, Some ErrValueNotExist) ∧
  toyToSomeKindMeta (Kind "CustomStructured" "panelcfg") =
    Returns (Some (SomeCustomStructuredMeta _ _ _ _ "panelcfg"), None) ∧
  toyToSomeKindMeta (Kind "Datasource" "loki") = Returns (None, Some ErrValueNotAKind).
Proof.
  split; [|split].
  - apply (@ToSomeKindMeta_first_valid toy string string string string "" "" "" ""
             toyDecode Framework Missing).
    reflexivity.
  - destruct (@ToSomeKindMeta_first_valid toy string string string string "" "" "" ""
                toyDecode Framework (Kind "CustomStructured" "panelcfg")) as [_ Hexists].
    destruct (Hexists eq_refl) as [Hfirst _].
    exact (Hfirst CustomStructured "panelcfg" eq_refl eq_refl).
  - destruct (@ToSomeKindMeta_first_valid toy string string string string "" "" "" ""
                toyDecode Framework (Kind "Datasource" "loki")) as [_ Hexists].
    destruct (Hexists eq_refl) as [_ Hnone].
    exact (Hnone eq_refl).
Defined.

Lemma BindKindLineage_by_category_witness :
  @BindKindLineage toy _ _ _ _
    (toyDecl (Kind "Raw" "svg") (SomeRawMeta _ _ _ _ "svg")) None [] = Returns (None, None) ∧
  @BindKindLineage toy _ _ _ _
    (toyDecl (Kind "CoreStructured" "dashboard") (SomeCoreStructuredMeta _ _ _ _ "dashboard"))
    (Some "test") [] = Returns (Some "dashboard@test", None).
Proof.
  split.
  - apply (@BindKindLineage_by_category toy string string string string
             (toyDecl (Kind "Raw" "svg") (SomeRawMeta _ _ _ _ "svg")) None []).
    reflexivity.
  - apply (@BindKindLineage_by_category toy string string string string
             (toyDecl (Kind "CoreStructured" "dashboard")
                      (SomeCoreStructuredMeta _ _ _ _ "dashboard")) (Some "test") []).
    left. reflexivity.
Defined.

(** The small runtime with a loader: a directory holds the core-structured
    kind named after it, and the empty path holds nothing. *)
Definition toy_loader : CueRuntime := {|
  Value := ToyValue;
  CueContext := unit;
  CueError := string;
  Instance_ := ToyValue;
  FS := unit;
  Runtime := string;
  Lineage := string;
  BindOption := unit;
  zeroValue := Missing;
  Exists := λ v, match v with Missing => false | _ => true end;
  ContextOf := λ _, Some tt;
  LookupPath := toyLookupPath;
  Unify := toyUnify;
  Validate := toyErr;
  Err := toyErr;
  Details := λ e, e;
  BuildInstance := λ _ inst, inst;
  InstancesWithThema := λ _ path,
    if String.eqb path "" then (Missing, Some "no CUE files")
    else (Kind "CoreStructured" path, None);
  BindLineage := toyBindLineage;
  CueSchemaFS := tt;
  GrafanaCUEContext := tt;
  GrafanaThemaRuntime := "grafana"
|}.

Definition toyLoadAnyKindFS :=
  @LoadAnyKindFS toy_loader string string string string "" "" "" "" toyDecode Framework.

(** Core kinds are built from their declaration path; here all are raw. *)
Definition toyBuildGrafanaInstance (declpath pkg : string) (ctx : option unit)
    (overlay : option unit) : ToyValue * option string :=
  (Kind "Raw" declpath, None).

Definition toyLoadCoreKind :=
  @LoadCoreKind toy string string string string "" "" "" "" toyDecode Framework
    toyBuildGrafanaInstance.

Lemma CUEFramework_is_load_witness :
  @CUEFramework toy Framework None = Framework ∧
  @CUEFramework toy Framework (Some tt) = Framework.
Proof.
  split.
  - exact (@CUEFramework_is_load toy Framework None eq_refl).
  - exact (@CUEFramework_is_load toy Framework (Some tt) eq_refl).
Defined.

Lemma ToSomeKindMeta_sound_witness :
  ∃ T m,
    SomeCustomStructuredMeta string string string string "panelcfg" =
      toSome string string string string T m ∧
    @first_valid toy Framework (Kind "CustomStructured" "panelcfg") = Some T ∧
    toyToKindMeta T (Kind "CustomStructured" "panelcfg") = Returns (m, None).
Proof.
  exact (@ToSomeKindMeta_sound toy string string string string "" "" "" ""
           toyDecode Framework (Kind "CustomStructured" "panelcfg")
           (SomeCustomStructuredMeta _ _ _ _ "panelcfg") eq_refl).
Defined.

Lemma ToSomeKindMeta_not_a_kind_witness :
  @Exists toy (Kind "Datasource" "loki") = true ∧
  ∀ T, toyToKindMeta T (Kind "Datasource" "loki") =
         Returns (zeroMeta string string string string "" "" "" "" T,
                  Some (ewrap (@Err toy (@kind_item toy Framework T (Kind "Datasource" "loki")))
                              ErrValueNotAKind)).
Proof.
  exact (@ToSomeKindMeta_not_a_kind toy string string string string "" "" "" ""
           toyDecode Framework (Kind "Datasource" "loki") eq_refl).
Defined.

Lemma LoadAnyKindFS_loaded_witness :
  toyLoadAnyKindFS tt "" tt = Returns (None, Some (@FromCue toy_loader "no CUE files")) ∧
  ∃ decl,
    toyLoadAnyKindFS tt "dashboard" tt = Returns (Some decl, None) ∧
    @Validate toy_loader (V _ _ _ _ decl) = None ∧
    ∃ r, @BindKindLineage toy_loader _ _ _ _ decl None [] = Returns r.
Proof.
  split; [reflexivity|].
  destruct (@LoadAnyKindFS_loaded toy_loader string string string string "" "" "" ""
              toyDecode Framework tt "dashboard" tt) as [_ Hloaded].
  eexists. split; [reflexivity|].
  destruct (Hloaded _ eq_refl) as (Hvalid & _ & Hbind).
  split; [exact Hvalid|]. exact (Hbind None []).
Defined.

Lemma LoadCoreKind_loaded_witness :
  ∃ decl,
    toyLoadCoreKind CoreRaw "kinds/raw/svg" None None = Returns (Some decl, None) ∧
    toyToKindMeta Raw (@Decl_V _ _ _ _ _ _ decl) = Returns (@Decl_Meta _ _ _ _ _ _ decl, None) ∧
    @BindKindLineage toy _ _ _ _ (Some_ _ _ _ _ decl) None [] = Returns (None, None).
Proof.
  eexists. split; [reflexivity|].
  destruct (@LoadCoreKind_loaded toy string string string string "" "" "" ""
              toyDecode Framework toyBuildGrafanaInstance CoreRaw "kinds/raw/svg" None None
              _ eq_refl) as (_ & Hmeta & Hraw).
  split; [exact Hmeta|]. exact (Hraw eq_refl None []).
Defined.

End Kindsys.

(** ** pkg/cuectx *)

Module Cuectx.

(** *** Slash-separated paths, as on a Unix host

    [path/filepath] with separator '/': [FromSlash] and [ToSlash] are the
    identity, [Join] joins its non-empty arguments with '/' and cleans the
    result. *)

Definition FromSlash (path : string) : string := path.
Definition ToSlash (path : string) : string := path.

Definition is_slash (c : ascii) : bool := Ascii.eqb c "/"%char.

(** The elements of a path: the substrings between its slashes. *)
Fixpoint split (path : string) : list string :=
  match path with
  | EmptyString => [""]
  | String c rest =>
      if is_slash c then "" :: split rest
      else match split rest with
           | elem :: elems => String c elem :: elems
           | [] => [String c ""]
           end
  end.

Fixpoint join (elems : list string) : string :=
  match elems with
  | [] => ""
  | elem :: rest =>
      match rest with
      | [] => elem
      | _ :: _ => elem +:+ "/" +:+ join rest
      end
  end.

(** One element of [Clean]'s loop over the path; [out] holds the elements
    written so far, the last one first.  Empty and "." elements are
    dropped; ".." removes the last element when there is one to remove, is
    dropped at the root, and is kept otherwise. *)
Definition clean_step (rooted : bool) (out : list string) (elem : string) : list string :=
  if String.eqb elem "" then out
  else if String.eqb elem "." then out
  else if String.eqb elem ".." then
    match out with
    | last :: out' =>
        if String.eqb last ".." then (if rooted then out else ".." :: out) else out'
    | [] => if rooted then out else [".."]
    end
  else elem :: out.

Definition rooted (path : string) : bool :=
  match path with
  | String c _ => is_slash c
  | EmptyString => false
  end.

Definition Clean (path : string) : string :=
  if String.eqb path "" then "."
  else
    let out := rev (fold_left (clean_step (rooted path)) (split path) []) in
    if rooted path then "/" +:+ join out
    else match out with
         | [] => "."
         | _ :: _ => join out
         end.

(** [filepath.Join] of two elements. *)
Definition Join (a b : string) : string :=
  if String.eqb a "" then (if String.eqb b "" then "" else Clean b)
  else Clean (a +:+ "/" +:+ b).

(** *** [io/fs] path names *)

(** [utf8.ValidString], on the bytes of the string. *)
Definition in_range (lo hi : N) (c : ascii) : bool :=
  (lo <=? N_of_ascii c)%N && (N_of_ascii c <=? hi)%N.

Definition cont : ascii → bool := in_range 128 191.

Fixpoint ValidString (s : string) : bool :=
  match s with
  | EmptyString => true
  | String c0 rest =>
      if in_range 0 127 c0 then ValidString rest
      else match rest with
      | String c1 rest1 =>
          if in_range 194 223 c0 then cont c1 && ValidString rest1
          else match rest1 with
          | String c2 rest2 =>
              if in_range 224 239 c0 then
                (if in_range 224 224 c0 then in_range 160 191 c1
                 else if in_range 237 237 c0 then in_range 128 159 c1
                 else cont c1) && cont c2 && ValidString rest2
              else match rest2 with
              | String c3 rest3 =>
                  in_range 240 244 c0 &&
                  (if in_range 240 240 c0 then in_range 144 191 c1
                   else if in_range 244 244 c0 then in_range 128 143 c1
                   else cont c1) && cont c2 && cont c3 && ValidString rest3
              | EmptyString => false
              end
          | EmptyString => false
          end
      | EmptyString => false
      end
  end.

(** An element that names something: not empty, not "." and not "..". *)
Definition real_elem (elem : string) : bool :=
  negb (String.eqb elem "" || String.eqb elem "." || String.eqb elem "..").

(** [fs.ValidPath]: unrooted, slash-separated, every element a name; "."
    alone names the root. *)
Definition ValidPath (name : string) : bool :=
  ValidString name && (String.eqb name "." || forallb real_elem (split name)).

Example Clean_examples :
  Clean "abc//def/../ghi/./" = "abc/ghi" ∧ Clean "/../a/b/../.." = "/" ∧
  Clean "../../a" = "../../a" ∧ Clean "a/.." = "." ∧ Clean "//x" = "/x" ∧
  Join "kinds/" "dashboard/dashboard_kind.cue" = "kinds/dashboard/dashboard_kind.cue" ∧
  Join "" "a.cue" = "a.cue" ∧ Join "/pkg" "kindsys" = "/pkg/kindsys" ∧
  ValidPath "a/b.cue" = true ∧ ValidPath "/a" = false ∧ ValidPath "a//b" = false ∧
  ValidPath "a/../b" = false ∧ ValidPath "." = true ∧ ValidPath "" = false.
Proof. repeat split; reflexivity. Qed.

(** Strings and their elements. *)
Lemma app_String c s t : String c s +:+ t = String c (s +:+ t).
Proof. reflexivity. Qed.

Lemma app_empty_l s : "" +:+ s = s.
Proof. reflexivity. Qed.

Lemma app_assoc_s (s t u : string) : (s +:+ t) +:+ u = s +:+ (t +:+ u).
Proof. induction s as [|c s IH]; [done|]. by rewrite !app_String, IH. Qed.

Lemma split_not_nil path : split path ≠ [].
Proof.
  destruct path as [|c rest]; simpl; [done|].
  destruct (is_slash c); [done|]. by destruct (split rest).
Qed.

Lemma split_app a b : split (a +:+ "/" +:+ b) = split a ++ split b.
Proof.
  induction a as [|c a IH].
  - reflexivity.
  - rewrite app_String. simpl. rewrite IH.
    destruct (is_slash c); [done|].
    pose proof (split_not_nil a). by destruct (split a).
Qed.

Lemma is_slash_true c : is_slash c = true → c = "/"%char.
Proof. apply Ascii.eqb_eq. Qed.

Lemma join_split path : join (split path) = path.
Proof.
  induction path as [|c rest IH]; [done|].
  simpl. destruct (is_slash c) eqn:Hc.
  - apply is_slash_true in Hc as ->.
    pose proof (split_not_nil rest).
    change (join ("" :: split rest)) with
      (match split rest with [] => "" | _ :: _ => "" +:+ "/" +:+ join (split rest) end).
    destruct (split rest) eqn:E; [done|]. by rewrite IH.
  - pose proof (split_not_nil rest).
    destruct (split rest) as [|elem elems] eqn:E; [done|].
    rewrite <- IH. simpl. by destruct elems.
Qed.

Lemma join_app elems1 elems2 :
  elems2 ≠ [] →
  join (elems1 ++ elems2) =
    match elems1 with
    | [] => join elems2
    | _ :: _ => join elems1 +:+ "/" +:+ join elems2
    end.
Proof.
  intros Hne. induction elems1 as [|e1 elems1 IH]; [done|].
  simpl. destruct elems1 as [|e1' elems1].
  - simpl. by destruct elems2.
  - simpl in *. rewrite IH. by rewrite !app_assoc_s.
Qed.

(** The loop of [Clean] keeps elements that are names. *)
Lemma real_elem_clean_step r out elem :
  real_elem elem = true → clean_step r out elem = elem :: out.
Proof.
  unfold real_elem, clean_step. intros H.
  apply negb_true_iff in H. apply orb_false_iff in H as [H H3].
  apply orb_false_iff in H as [H1 H2]. by rewrite H1, H2, H3.
Qed.

Lemma fold_clean_step_real r out elems :
  forallb real_elem elems = true →
  fold_left (clean_step r) elems out = rev elems ++ out.
Proof.
  revert out. induction elems as [|elem elems IH]; intros out H; [done|].
  simpl in H. apply andb_true_iff in H as [He Hs].
  simpl. rewrite real_elem_clean_step, IH by done.
  by rewrite <- app_assoc.
Qed.

(** A path all of whose elements are names: what [fs.WalkDir] reports for
    a file. *)
Definition FilePath (path : string) : bool := forallb real_elem (split path).

Lemma FilePath_not_rooted path : FilePath path = true → rooted path = false.
Proof.
  unfold FilePath. destruct path as [|c rest]; [done|]. simpl.
  destruct (is_slash c); [|done]. simpl. done.
Qed.

Lemma FilePath_not_empty path : FilePath path = true → path ≠ "".
Proof. by intros H ->. Qed.

Lemma Clean_FilePath path : FilePath path = true → Clean path = path.
Proof.
  intros H. unfold Clean.
  destruct (String.eqb_spec path ""); [by apply FilePath_not_empty in H|].
  rewrite (FilePath_not_rooted _ H), fold_clean_step_real by done.
  rewrite app_nil_r, rev_involutive.
  pose proof (split_not_nil path). destruct (split path) eqn:E; [done|].
  by rewrite <- E, join_split.
Qed.

(** What [Join] puts in front of a file path: the cleaned prefix and a
    slash. *)
Definition join_base (a : string) : string :=
  if String.eqb a "" then ""
  else
    let out := rev (fold_left (clean_step (rooted a)) (split a) []) in
    (if rooted a then "/" else "") +:+
    match out with
    | [] => ""
    | _ :: _ => join out +:+ "/"
    end.

Lemma rooted_app a b : a ≠ "" → rooted (a +:+ b) = rooted a.
Proof. by destruct a. Qed.

Lemma Join_FilePath a path :
  FilePath path = true → Join a path = join_base a +:+ path.
Proof.
  intros H. unfold Join, join_base.
  destruct (String.eqb_spec a "") as [->|Ha].
  - destruct (String.eqb_spec path ""); [by apply FilePath_not_empty in H|].
    by rewrite Clean_FilePath.
  - unfold Clean.
    destruct (String.eqb_spec (a +:+ "/" +:+ path) "") as [E|_]; [by destruct a|].
    rewrite rooted_app, split_app, fold_left_app by done.
    rewrite (fold_clean_step_real _ _ (split path)) by done.
    rewrite rev_app_distr, rev_involutive.
    set (out := rev (fold_left (clean_step (rooted a)) (split a) [])).
    rewrite join_app by apply split_not_nil. rewrite join_split.
    pose proof (split_not_nil path) as Hp.
    destruct (rooted a), out as [|e out']; simpl.
    + done.
    + by rewrite !app_assoc_s.
    + destruct (split path) eqn:E; [done|]. done.
    + by rewrite !app_assoc_s.
Qed.

(** Distinct files of the input get distinct keys. *)
Lemma Join_inj a path1 path2 :
  FilePath path1 = true → FilePath path2 = true →
  Join a path1 = Join a path2 → path1 = path2.
Proof.
  intros H1 H2. rewrite !Join_FilePath by done. apply String.app_inj.
Qed.

(** A prefix that is itself made of names is put in front as it is. *)
Lemma join_base_FilePath prefix :
  FilePath prefix = true → join_base prefix = prefix +:+ "/".
Proof.
  intros H. unfold join_base.
  destruct (String.eqb_spec prefix ""); [by apply FilePath_not_empty in H|].
  rewrite (FilePath_not_rooted _ H), fold_clean_step_real by done.
  rewrite app_nil_r, rev_involutive.
  pose proof (split_not_nil prefix). destruct (split prefix) eqn:E; [done|].
  by rewrite <- E, join_split.
Qed.

Lemma Join_literal prefix path :
  FilePath prefix = true → FilePath path = true →
  Join prefix path = prefix +:+ "/" +:+ path.
Proof.
  intros Hprefix Hpath.
  by rewrite Join_FilePath, join_base_FilePath, app_assoc_s.
Qed.

Lemma FilePath_join prefix path :
  FilePath prefix = true → FilePath path = true →
  FilePath (prefix +:+ "/" +:+ path) = true.
Proof.
  unfold FilePath. intros Hprefix Hpath.
  by rewrite split_app, forallb_app, Hprefix, Hpath.
Qed.

(** Valid UTF-8 is closed under concatenation. *)
Lemma ValidString_app a b :
  ValidString a = true → ValidString b = true → ValidString (a +:+ b) = true.
Proof.
  intros Ha Hb. remember (String.length a) as n eqn:Hn. revert a Hn Ha.
  induction n as [n IH] using lt_wf_ind. intros a Hn Ha.
  destruct a as [|c0 a]; [done|].
  rewrite app_String. simpl in Hn, Ha |- *.
  destruct (in_range 0 127 c0).
  { apply (IH (String.length a)); [lia|done|done]. }
  destruct a as [|c1 a]; [done|].
  rewrite app_String. simpl in Hn.
  destruct (in_range 194 223 c0).
  { apply andb_true_iff in Ha as [H1 Ha]. rewrite H1. simpl.
    apply (IH (String.length a)); [lia|done|done]. }
  destruct a as [|c2 a]; [done|].
  rewrite app_String. simpl in Hn.
  destruct (in_range 224 239 c0).
  { apply andb_true_iff in Ha as [H1 Ha]. rewrite H1. simpl.
    apply (IH (String.length a)); [lia|done|done]. }
  destruct a as [|c3 a]; [done|].
  rewrite app_String. simpl in Hn.
  apply andb_true_iff in Ha as [H1 Ha]. rewrite H1. simpl.
  apply (IH (String.length a)); [lia|done|done].
Qed.

Lemma ValidPath_FilePath path :
  ValidPath path = true → path ≠ "." → FilePath path = true.
Proof.
  unfold ValidPath, FilePath. intros [_ H]%andb_true_iff Hdot.
  apply orb_true_iff in H as [H|H]; [|done].
  by apply String.eqb_eq in H.
Qed.

(** For a prefix that is a valid path name other than ".", the key of a
    valid input path is the prefix, a slash and the path, and it is a
    valid path name. *)
Lemma Join_valid prefix path :
  ValidPath prefix = true → prefix ≠ "." →
  ValidPath path = true → path ≠ "." →
  Join prefix path = prefix +:+ "/" +:+ path ∧
  ValidPath (prefix +:+ "/" +:+ path) = true.
Proof.
  intros Hprefix Hdot Hpath Hdot'.
  pose proof (ValidPath_FilePath _ Hprefix Hdot) as Hf.
  pose proof (ValidPath_FilePath _ Hpath Hdot') as Hf'.
  split; [by apply Join_literal|].
  unfold ValidPath in *.
  apply andb_true_iff in Hprefix as [Hu _]. apply andb_true_iff in Hpath as [Hu' _].
  apply andb_true_iff. split.
  - apply ValidString_app; [done|]. by apply (ValidString_app "/").
  - apply orb_true_iff. right. by apply FilePath_join.
Qed.


(** Prefixes that differ in spelling only. *)
Lemma prefix_app a b : String.prefix a (a +:+ b) = true.
Proof.
  induction a as [|c a IH]; [by destruct b|].
  rewrite app_String. simpl. by destruct (ascii_dec c c).
Qed.

Lemma join_base_trailing_slash prefix :
  FilePath prefix = true → join_base (prefix +:+ "/") = join_base prefix.
Proof.
  intros H. rewrite (join_base_FilePath _ H). unfold join_base.
  destruct (String.eqb_spec (prefix +:+ "/") "") as [E|_]; [by destruct prefix|].
  rewrite rooted_app by (by apply FilePath_not_empty).
  rewrite (FilePath_not_rooted _ H).
  change (prefix +:+ "/") with (prefix +:+ "/" +:+ "").
  rewrite split_app, fold_left_app, (fold_clean_step_real _ _ (split prefix)) by done.
  change (fold_left (clean_step false) (split "") ?out) with out.
  rewrite app_nil_r, rev_involutive.
  pose proof (split_not_nil prefix). destruct (split prefix) eqn:E; [done|].
  rewrite <- E, join_split. reflexivity.
Qed.

Lemma join_base_leading_dot prefix :
  FilePath prefix = true → join_base ("./" +:+ prefix) = join_base prefix.
Proof.
  intros H. rewrite (join_base_FilePath _ H). unfold join_base.
  change ("./" +:+ prefix) with ("." +:+ "/" +:+ prefix).
  destruct (String.eqb_spec ("." +:+ "/" +:+ prefix) "") as [E|_]; [done|].
  rewrite split_app, fold_left_app.
  change (fold_left (clean_step (rooted ("." +:+ "/" +:+ prefix))) (split ".") []) with (@nil string).
  change (rooted ("." +:+ "/" +:+ prefix)) with false.
  rewrite (fold_clean_step_real _ _ (split prefix)) by done.
  rewrite app_nil_r, rev_involutive.
  pose proof (split_not_nil prefix). destruct (split prefix) eqn:E; [done|].
  rewrite <- E, join_split. reflexivity.
Qed.

(** *** File systems *)

Abbreviation bytes := (list Byte.byte).

(** [fstest.MapFS] and [embed.FS] as tables from the path of a file to its
    contents; directories are implied by the paths. *)
Abbreviation MapFS := (gmap string bytes).

(** A directory that lies above a name; two paths that are equal or one
    above the other. *)
Definition above (dir name : string) : bool := String.prefix (dir +:+ "/") name.

Definition related (key name : string) : Prop :=
  key = name ∨ above key name = true ∨ above name key = true.

#[global] Instance related_dec key name : Decision (related key name).
Proof. unfold related. apply _. Defined.

Section Prefix.

Variable error : Type.

(** One call of [fs.WalkDir]'s callback: the walk failed at the entry, or
    the entry is a directory, or it is a file, for which [fs.ReadFile]
    answers with its contents or an error. *)
Inductive Visit :=
  | VisitError (err : error)
  | VisitDir
  | VisitFile (read : bytes + error).

(** The input [fs.FS], as [fs.WalkDir] from "." traverses it. *)
Definition InputFS := list (string * Visit).

(** The callback [PrefixWithGrafanaCUE] passes to [fs.WalkDir]; it
    assigns to the map [m]. *)
Definition walkFn (prefix : string) (m : MapFS) (path : string) (d : Visit)
  : MapFS * option error :=
  match d with
  | VisitError err => (m, Some err)
  | VisitDir => (m, None)
  | VisitFile (inr err) => (m, Some err)
  | VisitFile (inl b) => (<[ToSlash (Join prefix path) := b]> m, None)
  end.

(** [fs.WalkDir]: the callback is called entry by entry; the first error
    it returns ends the walk and is the walk's error. *)
Fixpoint WalkDir (entries : InputFS)
    (fn : MapFS → string → Visit → MapFS * option error) (m : MapFS)
  : MapFS * option error :=
  match entries with
  | [] => (m, None)
  | (path, d) :: rest =>
      let '(m, err) := fn m path d in
      match err with
      | Some e => (m, Some e)
      | None => WalkDir rest fn m
      end
  end.

(** [merged_fs.NewMergedFS(a, b)] *)
Record MergedFS := NewMergedFS { A : MapFS; B : MapFS }.

(** [grafana.CueSchemaFS] *)
Variable CueSchemaFS : MapFS.

Definition PrefixWithGrafanaCUE (prefix : string) (inputfs : InputFS)
  : option MergedFS * option error :=
  let m : MapFS := ∅ in
  let prefix := FromSlash prefix in
  let '(m, err) := WalkDir inputfs (walkFn prefix) m in
  match err with
  | Some e => (None, Some e)
  | None => (Some (NewMergedFS m CueSchemaFS), None)
  end.

(** [fs.ReadFile] on a merged file system.  Names that are not valid
    paths are refused.  A file of [A] is served first.  A file of [B] is
    served when nothing of [A] stands in its way: [A] has no file at a
    directory above the name, and the name is no directory of [A]. *)
Definition ReadFile (fsys : MergedFS) (name : string) : option bytes :=
  if negb (ValidPath name) then None
  else
    match A fsys !! name with
    | Some b => Some b
    | None =>
        if bool_decide (map_Exists (λ key _, related key name) (A fsys)) then None
        else B fsys !! name
    end.

(** The paths of the files of the input, and whether its walk meets an
    error. *)
Definition file_paths (inputfs : InputFS) : list string :=
  omap (λ '(path, d), match d with VisitFile _ => Some path | _ => None end) inputfs.

Definition no_error (inputfs : InputFS) : bool :=
  forallb (λ '(_, d), match d with
                      | VisitError _ | VisitFile (inr _) => false
                      | _ => true
                      end) inputfs.

(** The key under which the callback files the input path [path]. *)
Definition key (prefix path : string) : string :=
  ToSlash (Join (FromSlash prefix) path).

Lemma WalkDir_other prefix entries m m' k :
  WalkDir entries (walkFn (FromSlash prefix)) m = (m', None) →
  k ∉ key prefix <$> file_paths entries →
  m' !! k = m !! k.
Proof.
  revert m. induction entries as [|[path d] rest IH]; intros m Hwalk Hk.
  - by injection Hwalk as ->.
  - simpl in Hwalk. destruct d as [err| |[b|err]]; simpl in Hwalk; try done.
    + by apply IH.
    + unfold file_paths in Hk. simpl in Hk. fold (file_paths rest) in Hk.
      apply not_elem_of_cons in Hk as [Hne Hk].
      rewrite (IH _ Hwalk Hk). by apply lookup_insert_ne.
Qed.

Lemma WalkDir_file prefix entries m m' path b :
  WalkDir entries (walkFn (FromSlash prefix)) m = (m', None) →
  NoDup (key prefix <$> file_paths entries) →
  (path, VisitFile (inl b)) ∈ entries →
  m' !! key prefix path = Some b.
Proof.
  revert m. induction entries as [|[path0 d] rest IH]; intros m Hwalk Hdup Hin.
  - by apply elem_of_nil in Hin.
  - simpl in Hwalk. apply elem_of_cons in Hin.
    destruct d as [err| |[b0|err]]; simpl in Hwalk; try done.
    + destruct Hin as [[=]|Hin]. by eapply IH.
    + unfold file_paths in Hdup. simpl in Hdup. fold (file_paths rest) in Hdup.
      apply NoDup_cons in Hdup as [Hfresh Hdup].
      destruct Hin as [[= -> ->]|Hin]; [|by eapply IH].
      rewrite (WalkDir_other _ _ _ _ _ Hwalk Hfresh).
      apply lookup_insert_eq.
Qed.

Lemma WalkDir_no_error prefix entries m :
  no_error entries = true → ∃ m', WalkDir entries (walkFn prefix) m = (m', None).
Proof.
  revert m. induction entries as [|[path d] rest IH]; intros m Hok; [by eexists|].
  simpl in Hok. apply andb_true_iff in Hok as [Hd Hok].
  simpl. destruct d as [err| |[b|err]]; simpl; try done; by apply IH.
Qed.

Lemma WalkDir_error prefix entries m m' :
  no_error entries = false → WalkDir entries (walkFn prefix) m ≠ (m', None).
Proof.
  revert m. induction entries as [|[path d] rest IH]; intros m Hok; [done|].
  simpl in Hok. simpl.
  destruct d as [err| |[b|err]]; simpl in *; try done; by apply IH.
Qed.

Lemma NoDup_keys prefix paths :
  NoDup paths → Forall (λ path, FilePath path = true) paths →
  NoDup (key prefix <$> paths).
Proof.
  induction 1 as [|path paths Hfresh Hdup IH]; intros Hall; [constructor|].
  apply Forall_cons in Hall as [Hpath Hall].
  simpl. apply NoDup_cons. split; [|by apply IH].
  intros (path' & Heq & Hin)%list_elem_of_fmap.
  rewrite Forall_forall in Hall.
  apply Join_inj in Heq; [by subst|done|by apply Hall].
Qed.

Lemma PrefixWithGrafanaCUE_returns prefix inputfs :
  no_error inputfs = true →
  ∃ m, WalkDir inputfs (walkFn (FromSlash prefix)) ∅ = (m, None) ∧
       PrefixWithGrafanaCUE prefix inputfs = (Some (NewMergedFS m CueSchemaFS), None).
Proof.
  intros Hok. destruct (WalkDir_no_error (FromSlash prefix) inputfs ∅ Hok) as [m Hm].
  exists m. split; [done|]. unfold PrefixWithGrafanaCUE. by rewrite Hm.
Qed.

(** A walk that meets an error returns the error and no file system. *)
Lemma PrefixWithGrafanaCUE_fails prefix inputfs :
  no_error inputfs = false →
  ∃ e, PrefixWithGrafanaCUE prefix inputfs = (None, Some e).
Proof.
  intros Hok. unfold PrefixWithGrafanaCUE.
  destruct (WalkDir inputfs (walkFn (FromSlash prefix)) ∅) as [m [e|]] eqn:Hwalk.
  - by exists e.
  - by apply WalkDir_error in Hwalk.
Qed.


(** *** Further properties of PrefixWithGrafanaCUE *)

(** The first error the walk meets: an error of the walk itself or of
    reading a file. *)
Fixpoint first_error (inputfs : InputFS) : option error :=
  match inputfs with
  | [] => None
  | (_, VisitError e) :: _ => Some e
  | (_, VisitFile (inr e)) :: _ => Some e
  | _ :: rest => first_error rest
  end.

Lemma WalkDir_first_error prefix entries m :
  snd (WalkDir entries (walkFn prefix) m) = first_error entries.
Proof.
  revert m. induction entries as [|[path d] rest IH]; intros m; [done|].
  simpl. destruct d as [err| |[b|err]]; simpl; try done; apply IH.
Qed.

Lemma WalkDir_from prefix entries m m' k b :
  WalkDir entries (walkFn (FromSlash prefix)) m = (m', None) →
  m' !! k = Some b →
  m !! k = Some b ∨ ∃ path, (path, VisitFile (inl b)) ∈ entries ∧ k = key prefix path.
Proof.
  revert m. induction entries as [|[path d] rest IH]; intros m Hwalk Hk.
  - injection Hwalk as ->. by left.
  - simpl in Hwalk. destruct d as [err| |[b0|err]]; simpl in Hwalk; try done.
    + destruct (IH _ Hwalk Hk) as [?|(path' & Hin & ->)]; [by left|].
      right. exists path'. split; [by apply elem_of_cons; right|done].
    + destruct (IH _ Hwalk Hk) as [Hm|(path' & Hin & ->)].
      * destruct (decide (key prefix path = k)) as [<-|Hne].
        -- unfold key in Hm. rewrite lookup_insert_eq in Hm. injection Hm as ->.
           right. exists path. split; [by apply elem_of_cons; left|done].
        -- left. unfold key in Hne. by rewrite lookup_insert_ne in Hm.
      * right. exists path'. split; [by apply elem_of_cons; right|done].
Qed.

Lemma file_paths_elem path b (inputfs : InputFS) :
  (path, VisitFile (inl b)) ∈ inputfs → path ∈ file_paths inputfs.
Proof.
  intros Hin. unfold file_paths. apply list_elem_of_omap.
  by exists (path, VisitFile (inl b)).
Qed.

(** The walk files the same entries under prefixes that give the same keys. *)
Lemma WalkDir_same_keys prefix1 prefix2 entries m :
  Forall (λ path, Join prefix1 path = Join prefix2 path) (file_paths entries) →
  WalkDir entries (walkFn prefix1) m = WalkDir entries (walkFn prefix2) m.
Proof.
  revert m. induction entries as [|[path d] rest IH]; intros m Hall; [done|].
  simpl. destruct d as [err| |[b|err]]; simpl; try done.
  - by apply IH.
  - unfold file_paths in Hall. simpl in Hall. fold (file_paths rest) in Hall.
    apply Forall_cons in Hall as [Hpath Hall]. rewrite Hpath. by apply IH.
Qed.

Lemma PrefixWithGrafanaCUE_same_base prefix1 prefix2 inputfs :
  join_base prefix1 = join_base prefix2 →
  Forall (λ path, FilePath path = true) (file_paths inputfs) →
  PrefixWithGrafanaCUE prefix1 inputfs = PrefixWithGrafanaCUE prefix2 inputfs.
Proof.
  intros Hbase Hpaths. unfold PrefixWithGrafanaCUE, FromSlash.
  rewrite (WalkDir_same_keys prefix1 prefix2); [done|].
  eapply Forall_impl; [exact Hpaths|]. intros path Hpath. simpl in Hpath.
  by rewrite !Join_FilePath, Hbase.
Qed.

(** X21: PrefixWithGrafanaCUE returns the first error the walk of the input
    meets, an error of the walk or of reading a file, whatever the
    prefix; it returns a file system if and only if the walk meets none. *)
Theorem PrefixWithGrafanaCUE_first_error prefix inputfs :
  snd (PrefixWithGrafanaCUE prefix inputfs) = first_error inputfs ∧
  (is_Some (fst (PrefixWithGrafanaCUE prefix inputfs)) ↔ first_error inputfs = None).
Proof.
  unfold PrefixWithGrafanaCUE.
  pose proof (WalkDir_first_error (FromSlash prefix) inputfs ∅) as Herr.
  destruct (WalkDir inputfs (walkFn (FromSlash prefix)) ∅) as [m [e|]];
    simpl in *; rewrite <- Herr.
  - split; [done|]. split; [by intros [? ?]|done].
  - split; [done|]. split; [done|]. intros _. by eexists.
Qed.

(** X22: the input part of the returned file system holds the files of the
    input and nothing else: a name is bound there to contents exactly when
    the input has a file with these contents whose key is the name.
    Directories add nothing, and the other part is the embedded
    CueSchemaFS itself. *)
Theorem PrefixWithGrafanaCUE_input_part prefix inputfs fsys :
  PrefixWithGrafanaCUE prefix inputfs = (Some fsys, None) →
  NoDup (file_paths inputfs) →
  Forall (λ path, FilePath path = true) (file_paths inputfs) →
  B fsys = CueSchemaFS ∧
  ∀ name b,
    A fsys !! name = Some b ↔
    ∃ path, (path, VisitFile (inl b)) ∈ inputfs ∧ name = key prefix path.
Proof.
  unfold PrefixWithGrafanaCUE. intros Hres Hdup Hpaths.
  destruct (WalkDir inputfs (walkFn (FromSlash prefix)) ∅) as [m [e|]] eqn:Hwalk; [done|].
  injection Hres as <-. simpl. split; [done|]. intros name b. split.
  - intros Hname. by destruct (WalkDir_from _ _ _ _ _ _ Hwalk Hname) as [?|?].
  - intros (path & Hin & ->).
    by apply (WalkDir_file _ _ _ _ _ _ Hwalk (NoDup_keys _ _ Hdup Hpaths)).
Qed.

(** X23: nothing is filed outside the prefix: under a prefix that is a
    relative path of names, every name bound in the input part of the
    result lies below the prefix directory. *)
Theorem PrefixWithGrafanaCUE_below_prefix prefix inputfs fsys name :
  PrefixWithGrafanaCUE prefix inputfs = (Some fsys, None) →
  FilePath prefix = true →
  Forall (λ path, FilePath path = true) (file_paths inputfs) →
  is_Some (A fsys !! name) →
  above prefix name = true.
Proof.
  unfold PrefixWithGrafanaCUE. intros Hres Hprefix Hpaths [b Hname].
  destruct (WalkDir inputfs (walkFn (FromSlash prefix)) ∅) as [m [e|]] eqn:Hwalk; [done|].
  injection Hres as <-. simpl in Hname.
  destruct (WalkDir_from _ _ _ _ _ _ Hwalk Hname) as [?|(path & Hin & ->)]; [done|].
  rewrite Forall_forall in Hpaths.
  unfold key, ToSlash, FromSlash, above.
  rewrite Join_literal by eauto using file_paths_elem.
  rewrite <- app_assoc_s. apply prefix_app.
Qed.

(** X24: the order of the walk does not matter: two walks of the same
    entries, in any order, give the same result. *)
Theorem PrefixWithGrafanaCUE_order_irrelevant prefix inputfs1 inputfs2 :
  inputfs1 ≡ₚ inputfs2 →
  no_error inputfs1 = true →
  NoDup (file_paths inputfs1) →
  Forall (λ path, FilePath path = true) (file_paths inputfs1) →
  PrefixWithGrafanaCUE prefix inputfs1 = PrefixWithGrafanaCUE prefix inputfs2.
Proof.
  intros Hperm Hok1 Hdup1 Hpaths1.
  assert (file_paths inputfs1 ≡ₚ file_paths inputfs2) as Hfiles
    by (unfold file_paths; by rewrite Hperm).
  assert (no_error inputfs2 = true) as Hok2.
  { unfold no_error in *. apply Is_true_true, forallb_True.
    apply Is_true_true, forallb_True in Hok1. by rewrite <- Hperm. }
  assert (NoDup (file_paths inputfs2)) as Hdup2 by (by rewrite <- Hfiles).
  assert (Forall (λ path, FilePath path = true) (file_paths inputfs2)) as Hpaths2
    by (by rewrite <- Hfiles).
  destruct (PrefixWithGrafanaCUE_returns prefix inputfs1 Hok1) as (m1 & Hwalk1 & ->).
  destruct (PrefixWithGrafanaCUE_returns prefix inputfs2 Hok2) as (m2 & Hwalk2 & ->).
  do 3 f_equal. apply map_eq. intros k. apply option_eq. intros b. split.
  - intros Hk. destruct (WalkDir_from _ _ _ _ _ _ Hwalk1 Hk) as [?|(path & Hin & ->)]; [done|].
    apply (WalkDir_file _ _ _ _ _ _ Hwalk2 (NoDup_keys _ _ Hdup2 Hpaths2)).
    by rewrite <- Hperm.
  - intros Hk. destruct (WalkDir_from _ _ _ _ _ _ Hwalk2 Hk) as [?|(path & Hin & ->)]; [done|].
    apply (WalkDir_file _ _ _ _ _ _ Hwalk1 (NoDup_keys _ _ Hdup1 Hpaths1)).
    by rewrite Hperm.
Qed.

(** X25: the spelling of the prefix does not matter: a trailing slash or a
    leading "./" on a prefix that is a relative path of names gives the
    same result. *)
Theorem PrefixWithGrafanaCUE_prefix_spelling prefix inputfs :
  FilePath prefix = true →
  Forall (λ path, FilePath path = true) (file_paths inputfs) →
  PrefixWithGrafanaCUE (prefix +:+ "/") inputfs = PrefixWithGrafanaCUE prefix inputfs ∧
  PrefixWithGrafanaCUE ("./" +:+ prefix) inputfs = PrefixWithGrafanaCUE prefix inputfs.
Proof.
  intros Hprefix Hpaths. split.
  - apply PrefixWithGrafanaCUE_same_base; [|done]. by apply join_base_trailing_slash.
  - apply PrefixWithGrafanaCUE_same_base; [|done]. by apply join_base_leading_dot.
Qed.

(** X26: under the empty prefix, and under ".", every input file is filed
    at its own path. *)
Theorem PrefixWithGrafanaCUE_no_prefix inputfs fsys path b :
  PrefixWithGrafanaCUE "" inputfs = (Some fsys, None) →
  NoDup (file_paths inputfs) →
  Forall (λ path, FilePath path = true) (file_paths inputfs) →
  (path, VisitFile (inl b)) ∈ inputfs →
  A fsys !! path = Some b ∧
  PrefixWithGrafanaCUE "." inputfs = (Some fsys, None).
Proof.
  intros Hres Hdup Hpaths Hin. split.
  - destruct (PrefixWithGrafanaCUE_input_part _ _ _ Hres Hdup Hpaths) as [_ Hpart].
    apply Hpart. exists path. split; [done|].
    unfold key, ToSlash, FromSlash. rewrite Join_FilePath; [done|].
    rewrite Forall_forall in Hpaths. eauto using file_paths_elem.
  - by rewrite <- Hres; apply PrefixWithGrafanaCUE_same_base.
Qed.

(** X27: for an input without files, the result reads exactly like the
    embedded CueSchemaFS at every valid path name, and refuses the others. *)
Theorem PrefixWithGrafanaCUE_no_files prefix inputfs :
  no_error inputfs = true →
  file_paths inputfs = [] →
  ∃ fsys,
    PrefixWithGrafanaCUE prefix inputfs = (Some fsys, None) ∧
    ∀ name, ReadFile fsys name = if ValidPath name then CueSchemaFS !! name else None.
Proof.
  intros Hok Hfiles.
  destruct (PrefixWithGrafanaCUE_returns prefix inputfs Hok) as (m & Hwalk & Hres).
  eexists. split; [exact Hres|]. intros name.
  assert (m = ∅) as ->.
  { apply map_eq. intros k. rewrite (WalkDir_other _ _ _ _ k Hwalk); [done|].
    rewrite Hfiles. apply not_elem_of_nil. }
  unfold ReadFile. simpl. destruct (ValidPath name); simpl; [|done].
  rewrite lookup_empty, bool_decide_eq_false_2; [done|]. apply map_Exists_empty.
Qed.

(** *** LoadGrafanaInstancesWithThema *)

(** Thema: [load.InstancesWithThema] on a file system and a directory,
    [rt.Context().BuildInstance] and [thema.BindLineage]. *)
Variables BuildInstance_ Value Lineage Runtime BindOption : Type.
Variable InstancesWithThema : option MergedFS → string → BuildInstance_ * option error.
Variable BuildInstance : Runtime → BuildInstance_ → Value.
Variable BindLineage : Value → Runtime → list BindOption → option Lineage * option error.

Definition LoadGrafanaInstancesWithThema (path : string) (cueFS : InputFS)
    (rt : Runtime) (opts : list BindOption) : option Lineage * option error :=
  let prefix := FromSlash path in
  let '(fs, err) := PrefixWithGrafanaCUE prefix cueFS in
  match err with
  | Some e => (None, Some e)
  | None =>
      let '(inst, err) := InstancesWithThema fs prefix in
      match err with
      | Some e => (None, Some e)
      | None =>
          let val := BuildInstance rt inst in
          let '(lin, err) := BindLineage val rt opts in
          match err with
          | Some e => (None, Some e)
          | None => (lin, None)
          end
      end
  end.

(** X28: LoadGrafanaInstancesWithThema never returns a lineage beside an
    error, and an error met while walking the input is returned as it is:
    the loader's and the binder's results do not matter then. *)
Theorem LoadGrafanaInstancesWithThema_errors path cueFS rt opts :
  (snd (LoadGrafanaInstancesWithThema path cueFS rt opts) = None ∨
   fst (LoadGrafanaInstancesWithThema path cueFS rt opts) = None) ∧
  (∀ e, first_error cueFS = Some e →
        LoadGrafanaInstancesWithThema path cueFS rt opts = (None, Some e)).
Proof.
  unfold LoadGrafanaInstancesWithThema.
  pose proof (PrefixWithGrafanaCUE_first_error (FromSlash path) cueFS) as [Herr _].
  destruct (PrefixWithGrafanaCUE (FromSlash path) cueFS) as [fs [e|]]; simpl in Herr.
  { split; [by right|]. intros e'. rewrite <- Herr. by intros [= ->]. }
  split; [|intros e; by rewrite <- Herr].
  destruct (InstancesWithThema fs (FromSlash path)) as [inst [e|]]; [by right|].
  destruct (BindLineage _ rt opts) as [lin [e|]]; [by right|by left].
Qed.

End Prefix.

Arguments VisitError {error}.
Arguments VisitDir {error}.
Arguments VisitFile {error}.
Arguments PrefixWithGrafanaCUE {error}.

(** *** An embedded file system and two inputs *)

Definition text (s : string) : bytes := String.list_byte_of_string s.

(** The embedded module file and one schema. *)
Definition demo_embedded : MapFS :=
  {[ "cue.mod/module.cue" := text "module: github.com/grafana/grafana";
     "kinds/team/team_kind.cue" := text "name: Team" ]}.

(** A directory holding the declaration of a kind. *)
Definition demo_kind_dir : InputFS string :=
  [ (".", VisitDir);
    ("dashboard_kind.cue", VisitFile (inl (text "name: Dashboard")));
    ("testdata", VisitDir);
    ("testdata/empty.json", VisitFile (inl [])) ].

(** A directory holding a module file of its own. *)
Definition demo_module_dir : InputFS string :=
  [ (".", VisitDir);
    ("module.cue", VisitFile (inl (text "module: example.com/other"))) ].



(** An input of directories only, and an input one of whose files
    cannot be read. *)
Definition demo_empty_dir : InputFS string :=
  [ (".", VisitDir); ("testdata", VisitDir) ].

Definition demo_unreadable_dir : InputFS string :=
  [ (".", VisitDir);
    ("a.cue", VisitFile (inl (text "a: 1")));
    ("b.cue", VisitFile (inr "permission denied"));
    ("c", VisitError "input/output error") ].

Lemma demo_kind_dir_NoDup : NoDup (file_paths string demo_kind_dir).
Proof. apply (bool_decide_unpack _). vm_compute. exact I. Defined.

Lemma demo_kind_dir_FilePath :
  Forall (λ path, FilePath path = true) (file_paths string demo_kind_dir).
Proof. repeat constructor. Defined.

Lemma demo_module_dir_NoDup : NoDup (file_paths string demo_module_dir).
Proof. apply (bool_decide_unpack _). vm_compute. exact I. Defined.

Lemma demo_module_dir_FilePath :
  Forall (λ path, FilePath path = true) (file_paths string demo_module_dir).
Proof. repeat constructor. Defined.

Lemma PrefixWithGrafanaCUE_input_part_witness :
  ∃ fsys,
    PrefixWithGrafanaCUE demo_embedded "kinds/dashboard" demo_kind_dir = (Some fsys, None) ∧
    B fsys = demo_embedded ∧
    ∀ name b,
      A fsys !! name = Some b ↔
      ∃ path, (path, VisitFile (inl b)) ∈ demo_kind_dir ∧ name = key "kinds/dashboard" path.
Proof.
  eexists. split; [reflexivity|].
  exact (PrefixWithGrafanaCUE_input_part string demo_embedded "kinds/dashboard"
           demo_kind_dir _ eq_refl demo_kind_dir_NoDup demo_kind_dir_FilePath).
Defined.

Lemma PrefixWithGrafanaCUE_below_prefix_witness :
  above "kinds/dashboard" "kinds/dashboard/testdata/empty.json" = true.
Proof.
  apply (PrefixWithGrafanaCUE_below_prefix string demo_embedded "kinds/dashboard"
           demo_kind_dir _ "kinds/dashboard/testdata/empty.json" eq_refl eq_refl
           demo_kind_dir_FilePath).
  eexists. reflexivity.
Defined.

Lemma PrefixWithGrafanaCUE_order_irrelevant_witness :
  PrefixWithGrafanaCUE demo_embedded "kinds/dashboard" demo_kind_dir =
  PrefixWithGrafanaCUE demo_embedded "kinds/dashboard" (reverse demo_kind_dir).
Proof.
  apply (PrefixWithGrafanaCUE_order_irrelevant string demo_embedded "kinds/dashboard"
           demo_kind_dir (reverse demo_kind_dir)).
  - symmetry. apply reverse_Permutation.
  - reflexivity.
  - exact demo_kind_dir_NoDup.
  - exact demo_kind_dir_FilePath.
Defined.

Lemma PrefixWithGrafanaCUE_prefix_spelling_witness :
  PrefixWithGrafanaCUE demo_embedded "kinds/dashboard/" demo_kind_dir =
    PrefixWithGrafanaCUE demo_embedded "kinds/dashboard" demo_kind_dir ∧
  PrefixWithGrafanaCUE demo_embedded "./kinds/dashboard" demo_kind_dir =
    PrefixWithGrafanaCUE demo_embedded "kinds/dashboard" demo_kind_dir.
Proof.
  exact (PrefixWithGrafanaCUE_prefix_spelling string demo_embedded "kinds/dashboard"
           demo_kind_dir eq_refl demo_kind_dir_FilePath).
Defined.

Lemma PrefixWithGrafanaCUE_no_prefix_witness :
  ∃ fsys,
    PrefixWithGrafanaCUE demo_embedded "" demo_module_dir = (Some fsys, None) ∧
    A fsys !! "module.cue" = Some (text "module: example.com/other") ∧
    PrefixWithGrafanaCUE demo_embedded "." demo_module_dir = (Some fsys, None).
Proof.
  eexists. split; [reflexivity|].
  apply (PrefixWithGrafanaCUE_no_prefix string demo_embedded demo_module_dir _
           "module.cue" (text "module: example.com/other") eq_refl
           demo_module_dir_NoDup demo_module_dir_FilePath).
  repeat constructor.
Defined.

Lemma PrefixWithGrafanaCUE_no_files_witness :
  ∃ fsys,
    PrefixWithGrafanaCUE demo_embedded "kinds/dashboard" demo_empty_dir = (Some fsys, None) ∧
    ∀ name, ReadFile fsys name = if ValidPath name then demo_embedded !! name else None.
Proof.
  exact (PrefixWithGrafanaCUE_no_files string demo_embedded "kinds/dashboard"
           demo_empty_dir eq_refl eq_refl).
Defined.

Lemma LoadGrafanaInstancesWithThema_errors_witness :
  LoadGrafanaInstancesWithThema string demo_embedded unit unit string unit unit
    (λ _ _, (tt, None)) (λ _ _, tt) (λ _ _ _, (Some "lineage", None))
    "kinds/dashboard" demo_unreadable_dir tt [] = (None, Some "permission denied").
Proof.
  apply (LoadGrafanaInstancesWithThema_errors string demo_embedded unit unit string unit unit
           (λ _ _, (tt, None)) (λ _ _, tt) (λ _ _ _, (Some "lineage", None))
           "kinds/dashboard" demo_unreadable_dir tt []).
  reflexivity.
Defined.

End Cuectx.
